(** * The MLB game-log migration: SQLite statements as functions on a store

    The script [sqlite3_Design_&_creating_DB.py] loads four CSV files into
    an SQLite database and runs a fixed sequence of SQL statements that
    reshape the wide [game_log] table into eight normalized tables.  Each
    statement is embedded here as a function from store to store (or to a
    raised exception); the engine rules those statements rely on (NULL
    propagation, type affinity, key conflicts, foreign keys) are written
    out next to them. *)

From stdpp Require Import gmap strings list sorting pretty.
From Stdlib Require Import ZArith Ascii String.

Local Open Scope string_scope.
Local Open Scope Z_scope.

(** ** Values

    Storage classes the migration manipulates: NULL, INTEGER and TEXT.
    REAL (floating point) and BLOB values are not represented. *)

Inductive value :=
  | VNull
  | VInt (z : Z)
  | VText (s : string).

#[global] Instance value_eq_dec : EqDecision value.
Proof. solve_decision. Defined.

Definition is_null (v : value) : bool :=
  match v with VNull => true | _ => false end.

(** Text rendering of a value, as the [||] operator sees its operands. *)
Definition sql_text (v : value) : option string :=
  match v with
  | VNull => None
  | VInt z => Some (pretty z)
  | VText s => Some s
  end.

(** [a || b]: NULL as soon as one operand is NULL. *)
Definition sql_concat (a b : value) : value :=
  match sql_text a, sql_text b with
  | Some x, Some y => VText (x +:+ y)
  | _, _ => VNull
  end.

(** *** CAST(x AS INT) *)

Definition is_space (a : ascii) : bool :=
  let n := N_of_ascii a in
  (N.eqb n 32 || (N.leb 9 n && N.leb n 13))%bool.

Definition digit_of (a : ascii) : option Z :=
  let n := Z.of_N (N_of_ascii a) in
  if (48 <=? n) && (n <=? 57) then Some (n - 48) else None.

Fixpoint skip_spaces (s : string) : string :=
  match s with
  | String a r => if is_space a then skip_spaces r else s
  | EmptyString => s
  end.

(** Value of the longest run of digits at the head of [s]. *)
Fixpoint digits_prefix (acc : Z) (s : string) : Z :=
  match s with
  | String a r =>
      match digit_of a with
      | Some d => digits_prefix (10 * acc + d) r
      | None => acc
      end
  | EmptyString => acc
  end.

Definition int64_min : Z := - 2 ^ 63.
Definition int64_max : Z := 2 ^ 63 - 1.
Definition clamp_int64 (z : Z) : Z := Z.max int64_min (Z.min int64_max z).

(** The longest integer prefix of a text after leading spaces; 0 when
    there is none. *)
Definition text_to_int (s : string) : Z :=
  match skip_spaces s with
  | String "-" r => clamp_int64 (- digits_prefix 0 r)
  | String "+" r => clamp_int64 (digits_prefix 0 r)
  | t => clamp_int64 (digits_prefix 0 t)
  end.

Definition sql_cast_int (v : value) : value :=
  match v with
  | VNull => VNull
  | VInt z => VInt z
  | VText s => VInt (text_to_int s)
  end.

(** *** Comparisons

    Three-valued: a comparison with NULL is unknown ([None]).  INTEGER
    values sort before TEXT values; texts compare byte by byte. *)

Definition sql_compare (a b : value) : option comparison :=
  match a, b with
  | VNull, _ | _, VNull => None
  | VInt x, VInt y => Some (x ?= y)%Z
  | VInt _, VText _ => Some Lt
  | VText _, VInt _ => Some Gt
  | VText s, VText t => Some (String.compare s t)
  end.

Definition sql_gt (a b : value) : option bool :=
  (λ c, match c with Gt => true | _ => false end) <$> sql_compare a b.

Definition sql_lt (a b : value) : option bool :=
  (λ c, match c with Lt => true | _ => false end) <$> sql_compare a b.

Definition sql_eq (a b : value) : option bool :=
  (λ c, match c with Eq => true | _ => false end) <$> sql_compare a b.

(** A WHEN branch or a WHERE clause fires only on a true condition;
    unknown counts as not true. *)
Definition sql_true (c : option bool) : bool := default false c.

(** *** Declared column types and their affinity *)

Inductive decltype := TEXT | INTEGER | BOOLEAN | NOTYPE.

#[global] Instance decltype_eq_dec : EqDecision decltype.
Proof. solve_decision. Defined.

Fixpoint only_spaces (s : string) : bool :=
  match s with
  | String a r => is_space a && only_spaces r
  | EmptyString => true
  end.

Fixpoint digits_then_spaces (s : string) : bool :=
  match s with
  | String a r =>
      match digit_of a with
      | Some _ => digits_then_spaces r
      | None => only_spaces s
      end
  | EmptyString => true
  end.

(** A text spells an integer: spaces, an optional sign, at least one
    digit, spaces. *)
Definition int_literal (s : string) : bool :=
  let t := skip_spaces s in
  let body := match t with String "-" r | String "+" r => r | _ => t end in
  match body with
  | String a _ => bool_decide (is_Some (digit_of a)) && digits_then_spaces body
  | EmptyString => false
  end.

Definition in_int64 (z : Z) : bool := (int64_min <=? z) && (z <=? int64_max).

(** Conversion applied to a value when it is stored in a column of the
    given declared type.  A TEXT column stores numbers as text; INTEGER
    and BOOLEAN (numeric affinity) columns turn a text that spells an
    integer into that integer; an untyped column stores the value as it
    comes.  Texts spelling fractional or out-of-range numbers would become
    REAL in the engine and are left as they are here. *)
Definition apply_affinity (ty : decltype) (v : value) : value :=
  match ty, v with
  | TEXT, VInt z => VText (pretty z)
  | (INTEGER | BOOLEAN), VText s =>
      if int_literal s && in_int64 (text_to_int s) then VInt (text_to_int s)
      else VText s
  | _, _ => v
  end.

(** ** Rows, tables and the store *)

(** A row maps column names to values; a column it does not mention is
    NULL. *)
Abbreviation row := (gmap string value).

Definition col (r : row) (c : string) : value := default VNull (r !! c).

(** A tuple is what a SELECT yields for one row, by position. *)
Abbreviation tuple := (list value).

Record fkey := FKey { fk_col : string; fk_table : string; fk_ref : string }.

(** Key of a table: none, an INTEGER PRIMARY KEY column (an alias of the
    rowid, filled in by the engine), or a PRIMARY KEY over some columns. *)
Inductive pkey :=
  | NoKey
  | RowidKey (c : string)
  | Key (cs : list string).

Record table := Table {
  tbl_cols : list (string * decltype);
  tbl_pk : pkey;
  tbl_fks : list fkey;
  tbl_rows : list row
}.

#[global] Instance fkey_eq_dec : EqDecision fkey.
Proof. solve_decision. Defined.
#[global] Instance pkey_eq_dec : EqDecision pkey.
Proof. solve_decision. Defined.
#[global] Instance table_eq_dec : EqDecision table.
Proof. solve_decision. Defined.

Abbreviation db := (gmap string table).

Definition with_rows (t : table) (rs : list row) : table :=
  {| tbl_cols := tbl_cols t; tbl_pk := tbl_pk t; tbl_fks := tbl_fks t;
     tbl_rows := rs |}.

Definition col_type (t : table) (c : string) : decltype :=
  match list_find (λ p, p.1 = c) (tbl_cols t) with
  | Some (_, (_, ty)) => ty
  | None => NOTYPE
  end.

(** ** Exceptions and the result of a statement *)

Inductive exn :=
  | NoSuchTable (t : string)
  | TableExists (t : string)
  | DuplicateColumn (c : string)
  | NoSuchColumn (c : string)
  | ForeignKeyFailed
  | UniqueFailed (t : string).

Inductive result (A : Type) :=
  | Ok (a : A)
  | Raise (e : exn).
Arguments Ok {A} a.
Arguments Raise {A} e.

#[global] Instance exn_eq_dec : EqDecision exn.
Proof. solve_decision. Defined.
#[global] Instance result_eq_dec `{EqDecision A} : EqDecision (result A).
Proof. solve_decision. Defined.

#[global] Instance result_ret : MRet result := λ A a, Ok a.
#[global] Instance result_bind : MBind result := λ A B f m,
  match m with
  | Ok a => f a
  | Raise e => Raise e
  end.

Definition get_table (name : string) (d : db) : result table :=
  match d !! name with
  | Some t => Ok t
  | None => Raise (NoSuchTable name)
  end.

Definition rows_of (name : string) (d : db) : result (list row) :=
  t ← get_table name d; Ok (tbl_rows t).

(** ** The engine's statements *)

(** *** Compound SELECT

    The engine computes a UNION through a transient index over all the
    columns, so the result holds each tuple once, in index order: NULL
    first, then integers, then texts. *)

Definition value_cmp (a b : value) : comparison :=
  match a, b with
  | VNull, VNull => Eq
  | VNull, _ => Lt
  | _, VNull => Gt
  | VInt x, VInt y => (x ?= y)%Z
  | VInt _, VText _ => Lt
  | VText _, VInt _ => Gt
  | VText s, VText t => String.compare s t
  end.

Fixpoint tuple_cmp (a b : tuple) : comparison :=
  match a, b with
  | [], [] => Eq
  | [], _ :: _ => Lt
  | _ :: _, [] => Gt
  | x :: a', y :: b' =>
      match value_cmp x y with
      | Eq => tuple_cmp a' b'
      | c => c
      end
  end.

Definition tuple_leb (a b : tuple) : bool :=
  match tuple_cmp a b with Gt => false | _ => true end.

Definition tuple_le (a b : tuple) : Prop := tuple_leb a b.

#[global] Instance tuple_le_dec : RelDecision tuple_le.
Proof. intros a b. unfold tuple_le. apply _. Defined.

Definition sql_union (a b : list tuple) : list tuple :=
  merge_sort tuple_le (remove_dups (a ++ b)).

Infix "UNION" := sql_union (at level 61, left associativity).

(** *** CREATE TABLE and DROP TABLE *)

Definition create_table (if_not_exists : bool) (name : string)
    (cols : list (string * decltype)) (pk : pkey) (fks : list fkey)
    (d : db) : result db :=
  match d !! name with
  | Some _ => if if_not_exists then Ok d else Raise (TableExists name)
  | None => Ok (<[name := Table cols pk fks []]> d)
  end.

(** [v], stored in a child column, finds a parent row: the parent
    column's affinity is applied to it before the comparison. *)
Definition has_key (p : table) (c : string) (v : value) : bool :=
  bool_decide (Exists (λ r, col r c = apply_affinity (col_type p c) v)
                      (tbl_rows p)).

(** Some row of some table refers, through a foreign key, to a row of
    table [name]. *)
Definition referenced (d : db) (name : string) (p : table) : bool :=
  bool_decide (Exists (λ nt : string * table,
      Exists (λ fk, fk_table fk = name ∧
          Exists (λ r, col r (fk_col fk) ≠ VNull ∧
                       has_key p (fk_ref fk) (col r (fk_col fk)) = true)
                 (tbl_rows nt.2))
        (tbl_fks nt.2))
    (map_to_list d)).

(** With foreign keys enforced, dropping a table first deletes its rows,
    which fails when a child row still refers to one of them. *)
Definition drop_table (fk_on if_exists : bool) (name : string) (d : db)
    : result db :=
  match d !! name with
  | None => if if_exists then Ok d else Raise (NoSuchTable name)
  | Some t =>
      if fk_on && referenced d name t then Raise ForeignKeyFailed
      else Ok (delete name d)
  end.

(** *** INSERT *)

Inductive on_conflict := ABORT | IGNORE.

Definition store_row (t : table) (cols : list string) (vals : tuple) : row :=
  list_to_map ((λ cv : string * value,
      (cv.1, apply_affinity (col_type t cv.1) cv.2)) <$> zip cols vals).

(** One more than the largest rowid in use. *)
Definition next_rowid (c : string) (rs : list row) : Z :=
  1 + foldr (λ r m, match col r c with VInt z => Z.max z m | _ => m end) 0 rs.

Definition assign_rowid (t : table) (rs : list row) (r : row) : row :=
  match tbl_pk t with
  | RowidKey c =>
      if is_null (col r c) then <[c := VInt (next_rowid c rs)]> r else r
  | _ => r
  end.

(** A row collides with a stored one when they agree on the key columns;
    a NULL in a key column never collides. *)
Definition key_conflict (t : table) (rs : list row) (r : row) : bool :=
  match tbl_pk t with
  | NoKey => false
  | RowidKey c => bool_decide (Exists (λ r', col r' c = col r c) rs)
  | Key cs =>
      bool_decide (Exists (λ r',
        Forall (λ c, col r c ≠ VNull ∧ col r' c = col r c) cs) rs)
  end.

Definition fk_ok (d : db) (t : table) (r : row) : bool :=
  forallb (λ fk,
      match col r (fk_col fk) with
      | VNull => true
      | v => match d !! fk_table fk with
             | Some p => has_key p (fk_ref fk) v
             | None => false
             end
      end) (tbl_fks t).

Definition missing_parent (d : db) (t : table) : option string :=
  (λ p : nat * fkey, fk_table p.2) <$>
    list_find (λ fk, d !! fk_table fk = None) (tbl_fks t).

(** Rows go in one at a time.  A key collision skips the row (IGNORE) or
    aborts the statement (ABORT); a skipped row is not checked against
    the foreign keys.  Foreign-key violations are counted and reported
    when the statement ends. *)
Fixpoint insert_tuples (oc : on_conflict) (d : db) (name : string)
    (t : table) (cols : list string) (rs : list row) (bad : bool)
    (ts : list tuple) : result (list row * bool) :=
  match ts with
  | [] => Ok (rs, bad)
  | v :: ts' =>
      let r := assign_rowid t rs (store_row t cols v) in
      if key_conflict t rs r then
        match oc with
        | IGNORE => insert_tuples oc d name t cols rs bad ts'
        | ABORT => Raise (UniqueFailed name)
        end
      else
        insert_tuples oc d name t cols (rs ++ [r])
                      (bad || negb (fk_ok d t r)) ts'
  end.

(** [INSERT [OR IGNORE] INTO name [(cols)] <tuples>].  A statement that
    raises leaves the store as it was. *)
Definition insert_into (oc : on_conflict) (fk_on : bool) (name : string)
    (cols : option (list string)) (ts : list tuple) (d : db) : result db :=
  t ← get_table name d;
  match (if fk_on then missing_parent d t else None) with
  | Some p => Raise (NoSuchTable p)
  | None =>
      '(rs, bad) ← insert_tuples oc d name t
                     (default (tbl_cols t).*1 cols) (tbl_rows t) false ts;
      if fk_on && bad then Raise ForeignKeyFailed
      else Ok (<[name := with_rows t rs]> d)
  end.

(** *** ALTER TABLE ... ADD COLUMN and UPDATE

    The added column reads NULL in every row. *)

Definition alter_add_column (name c : string) (ty : decltype) (d : db)
    : result db :=
  t ← get_table name d;
  if bool_decide (c ∈ (tbl_cols t).*1) then Raise (DuplicateColumn c)
  else Ok (<[name := Table (tbl_cols t ++ [(c, ty)]) (tbl_pk t) (tbl_fks t)
                           (delete c <$> tbl_rows t)]> d).

(** [UPDATE name SET c = e WHERE w], for a table without keys. *)
Definition update_set (name c : string) (e : row → value) (w : row → bool)
    (d : db) : result db :=
  t ← get_table name d;
  if bool_decide (c ∈ (tbl_cols t).*1) then
    Ok (<[name := with_rows t
          ((λ r, if w r then <[c := apply_affinity (col_type t c) (e r)]> r
                 else r) <$> tbl_rows t)]> d)
  else Raise (NoSuchColumn c).

(** *** pandas: DataFrame.to_sql *)

Record frame := Frame {
  fr_cols : list (string * decltype);
  fr_rows : list row
}.

(** [data.to_sql(name, conn, index=False, if_exists=...)]: creates the
    table from the frame's columns unless it is there (an error in the
    default mode, accepted in append mode), then inserts the frame's rows.
    The connection it runs on has not switched foreign keys on. *)
Definition to_sql (append : bool) (name : string) (data : frame) (d : db)
    : result db :=
  d ← match d !! name with
      | Some _ => if append then Ok d else Raise (TableExists name)
      | None => create_table false name (fr_cols data) NoKey [] d
      end;
  insert_into ABORT false name (Some (fr_cols data).*1)
    ((λ r, col r <$> (fr_cols data).*1) <$> fr_rows data) d.

(** ** The script *)

(** A statement, given whether the connection enforces foreign keys. *)
Abbreviation command := (bool → db → result db).

(** [run_command] opens a connection, switches foreign keys on and
    executes the statement in autocommit mode. *)
Definition run_command (c : command) (d : db) : result db := c true d.

(** [try: body except: pass] around one statement: whatever it raises is
    discarded and the script goes on with the store as it was. *)
Definition try_except_pass (body : db → result db) (d : db) : result db :=
  match body d with
  | Ok d' => Ok d'
  | Raise _ => Ok d
  end.

Fixpoint for_each {A : Type} (l : list A) (body : A → db → result db)
    (d : db) : result db :=
  match l with
  | [] => Ok d
  | x :: l' => d' ← body x d; for_each l' body d'
  end.

(** [INSERT ... INTO name [(cols)] SELECT ... FROM source ...]. *)
Definition insert_select (oc : on_conflict) (name : string)
    (cols : option (list string)) (source : string)
    (select : list row → list tuple) : command :=
  λ fk d, rs ← rows_of source d; insert_into oc fk name cols (select rs) d.

Definition where_not_null (c : string) (rs : list row) : list row :=
  filter (λ r, col r c ≠ VNull) rs.

(** *** In[13] to In[15]: loading the frames and deriving [game_id] *)

Module GameLog.

Definition tables (log person team park : frame) : list (string * frame) :=
  [("game_log", log); ("person_codes", person);
   ("team_codes", team); ("park_codes", park)].

Definition load (tbls : list (string * frame)) : db → result db :=
  for_each tbls (λ nd d,
    d ← drop_table false true nd.1 d;
    to_sql false nd.1 nd.2 d).

Definition c1 : command :=
  λ _, alter_add_column "game_log" "game_id" TEXT.

Definition game_id_of (r : row) : value :=
  sql_concat (sql_concat (col r "date") (col r "h_name"))
             (col r "number_of_game").

Definition c2 : command :=
  λ _, update_set "game_log" "game_id" game_id_of
         (λ r, is_null (col r "game_id")).

Definition add_game_id (d : db) : result db :=
  d ← try_except_pass (run_command c1) d;
  run_command c2 d.

End GameLog.

(** *** In[16] to In[19]: tables without foreign keys *)

Module Person.

Definition c1 : command :=
  λ _, create_table true "person"
    [("person_id", TEXT); ("first_name", TEXT); ("last_name", TEXT)]
    (Key ["person_id"]) [].

Definition c2 : command :=
  insert_select IGNORE "person" None "person_codes"
    (fmap (λ r, [col r "id"; col r "first"; col r "last"])).

End Person.

Module Park.

Definition c1 : command :=
  λ _, create_table true "park"
    [("park_id", TEXT); ("name", TEXT); ("nickname", TEXT);
     ("city", TEXT); ("state", TEXT); ("notes", TEXT)]
    (Key ["park_id"]) [].

Definition c2 : command :=
  insert_select IGNORE "park" None "park_codes"
    (fmap (λ r, [col r "park_id"; col r "name"; col r "aka";
                 col r "city"; col r "state"; col r "notes"])).

End Park.

Module League.

Definition c1 : command :=
  λ _, create_table true "league"
    [("league_id", TEXT); ("name", TEXT)] (Key ["league_id"]) [].

Definition c2 : command :=
  λ fk, insert_into IGNORE fk "league" None
    [ [VText "NL"; VText "National League"];
      [VText "AL"; VText "American League"];
      [VText "AA"; VText "American Association"];
      [VText "FL"; VText "Federal League"];
      [VText "PL"; VText "Players League"];
      [VText "UA"; VText "Union Association"] ].

End League.

Module AppearanceType.

Definition c1 : command := λ fk, drop_table fk true "appearance_type".

Definition c2 : command :=
  λ _, create_table false "appearance_type"
    [("appearance_type_id", TEXT); ("name", TEXT); ("category", TEXT)]
    (Key ["appearance_type_id"]) [].

Definition load (appearance_type : frame) : db → result db :=
  to_sql true "appearance_type" appearance_type.

End AppearanceType.

(** *** In[20], In[21]: team and game *)

Module Team.

Definition c1 : command :=
  λ _, create_table true "team"
    [("team_id", TEXT); ("league_id", TEXT); ("city", TEXT);
     ("nickname", TEXT); ("franch_id", TEXT)]
    (Key ["team_id"])
    [FKey "league_id" "league" "league_id"].

Definition c2 : command :=
  insert_select IGNORE "team" None "team_codes"
    (fmap (λ r, [col r "team_id"; col r "league"; col r "city";
                 col r "nickname"; col r "franch_id"])).

End Team.

Module Game.

Definition columns : list (string * decltype) :=
  [("game_id", TEXT); ("date", TEXT); ("number_of_game", INTEGER);
   ("park_id", TEXT); ("length_outs", INTEGER); ("day", BOOLEAN);
   ("completion", TEXT); ("forefeit", TEXT); ("protest", TEXT);
   ("attendance", INTEGER); ("legnth_minutes", INTEGER);
   ("additional_info", TEXT); ("acquisition_info", TEXT)].

Definition foreign_keys : list fkey :=
  [FKey "park_id" "park" "park_id"].

Definition c1 : command :=
  λ _, create_table true "game" columns (Key ["game_id"]) foreign_keys.

(** The table as [c1] creates it. *)
Definition created : table := Table columns (Key ["game_id"]) foreign_keys [].

Definition day (r : row) : value :=
  if sql_true (sql_eq (col r "day_night") (VText "D")) then VInt 1
  else if sql_true (sql_eq (col r "day_night") (VText "N")) then VInt 0
  else VNull.

Definition select (r : row) : tuple :=
  [col r "game_id"; col r "date"; col r "number_of_game"; col r "park_id";
   col r "length_outs"; day r; col r "completion"; col r "forefeit";
   col r "protest"; col r "attendance"; col r "length_minutes";
   col r "additional_info"; col r "acquisition_info"].

Definition c2 : command :=
  insert_select IGNORE "game" None "game_log" (fmap select).

End Game.

(** *** In[22]: team_appearance *)

Module TeamAppearance.

Definition columns : list (string * decltype) :=
  [("team_id", TEXT); ("game_id", TEXT); ("home", BOOLEAN);
   ("league_id", TEXT); ("score", INTEGER); ("line_score", TEXT);
   ("at_bats", INTEGER); ("hits", INTEGER); ("doubles", INTEGER);
   ("triples", INTEGER); ("homeruns", INTEGER); ("rbi", INTEGER);
   ("sacrifice_hits", INTEGER); ("sacrifice_flies", INTEGER);
   ("hit_by_pitch", INTEGER); ("walks", INTEGER);
   ("intentional_walks", INTEGER); ("strikeouts", INTEGER);
   ("stolen_bases", INTEGER); ("caught_stealing", INTEGER);
   ("grounded_into_double", INTEGER);
   ("first_catcher_interference", INTEGER); ("left_on_base", INTEGER);
   ("pitchers_used", INTEGER); ("individual_earned_runs", INTEGER);
   ("team_earned_runs", INTEGER); ("wild_pitches", INTEGER);
   ("balks", INTEGER); ("putouts", INTEGER); ("assists", INTEGER);
   ("errors", INTEGER); ("passed_balls", INTEGER);
   ("double_plays", INTEGER); ("triple_plays", INTEGER)].

Definition foreign_keys : list fkey :=
  [FKey "team_id" "team" "team_id";
   FKey "game_id" "game" "game_id";
   FKey "team_id" "team" "team_id"].

Definition c1 : command :=
  λ _, create_table true "team_appearance" columns (Key ["team_id"; "game_id"]) foreign_keys.

(** The table as [c1] creates it. *)
Definition created : table := Table columns (Key ["team_id"; "game_id"]) foreign_keys [].

Definition select_h (r : row) : tuple :=
  [col r "h_name"; col r "game_id"; VInt 1; col r "h_league";
   col r "h_score"; col r "h_line_score"; col r "h_at_bats";
   col r "h_hits"; col r "h_doubles"; col r "h_triples";
   col r "h_homeruns"; col r "h_rbi"; col r "h_sacrifice_hits";
   col r "h_sacrifice_flies"; col r "h_hit_by_pitch"; col r "h_walks";
   col r "h_intentional_walks"; col r "h_strikeouts";
   col r "h_stolen_bases"; col r "h_caught_stealing";
   col r "h_grounded_into_double"; col r "h_first_catcher_interference";
   col r "h_left_on_base"; col r "h_pitchers_used";
   col r "h_individual_earned_runs"; col r "h_team_earned_runs";
   col r "h_wild_pitches"; col r "h_balks"; col r "h_putouts";
   col r "h_assists"; col r "h_errors"; col r "h_passed_balls";
   col r "h_double_plays"; col r "h_triple_plays"].

Definition select_v (r : row) : tuple :=
  [col r "v_name"; col r "game_id"; VInt 0; col r "v_league";
   col r "v_score"; col r "v_line_score"; col r "v_at_bats";
   col r "v_hits"; col r "v_doubles"; col r "v_triples";
   col r "v_homeruns"; col r "v_rbi"; col r "v_sacrifice_hits";
   col r "v_sacrifice_flies"; col r "v_hit_by_pitch"; col r "v_walks";
   col r "v_intentional_walks"; col r "v_strikeouts";
   col r "v_stolen_bases"; col r "v_caught_stealing";
   col r "v_grounded_into_double"; col r "v_first_catcher_interference";
   col r "v_left_on_base"; col r "v_pitchers_used";
   col r "v_individual_earned_runs"; col r "v_team_earned_runs";
   col r "v_wild_pitches"; col r "v_balks"; col r "v_putouts";
   col r "v_assists"; col r "v_errors"; col r "v_passed_balls";
   col r "v_double_plays"; col r "v_triple_plays"].

Definition select (rs : list row) : list tuple :=
  (select_h <$> rs) UNION (select_v <$> rs).

Definition c2 : command :=
  insert_select IGNORE "team_appearance" None "game_log" select.

End TeamAppearance.

(** *** In[23]: person_appearance *)

Module PersonAppearance.

Definition c0 : command := λ fk, drop_table fk true "person_appearance".

Definition c1 : command :=
  λ _, create_table false "person_appearance"
    [("appearance_id", INTEGER); ("person_id", TEXT); ("team_id", TEXT);
     ("game_id", TEXT); ("appearance_type_id", NOTYPE)]
    (RowidKey "appearance_id")
    [FKey "person_id" "person" "person_id";
     FKey "team_id" "team" "team_id";
     FKey "game_id" "game" "game_id";
     FKey "appearance_type_id" "appearance_type" "appearance_type_id"].

Definition columns : list string :=
  ["game_id"; "team_id"; "person_id"; "appearance_type_id"].

(** One branch of the compound select: the rows in which [person] is
    not NULL, projected on game, team, person and a role tag. *)
Definition branch (team : row → value) (person : string)
    (role : row → value) (rs : list row) : list tuple :=
  (λ r, [col r "game_id"; team r; col r person; role r])
    <$> where_not_null person rs.

Definition winning_team (r : row) : value :=
  if sql_true (sql_gt (col r "h_score") (col r "v_score"))
  then col r "h_name" else col r "v_name".

Definition losing_team (r : row) : value :=
  if sql_true (sql_lt (col r "h_score") (col r "v_score"))
  then col r "h_name" else col r "v_name".

Definition no_team (r : row) : value := VNull.
Definition tag (s : string) (r : row) : value := VText s.

Definition select (rs : list row) : list tuple :=
  branch no_team "hp_umpire_id" (tag "UHP") rs
  UNION branch no_team "1b_umpire_id" (tag "U1B") rs
  UNION branch no_team "2b_umpire_id" (tag "U2B") rs
  UNION branch no_team "3b_umpire_id" (tag "U3B") rs
  UNION branch no_team "lf_umpire_id" (tag "ULF") rs
  UNION branch no_team "rf_umpire_id" (tag "URF") rs
  UNION branch (λ r, col r "v_name") "v_manager_id" (tag "MM") rs
  UNION branch (λ r, col r "h_name") "h_manager_id" (tag "MM") rs
  UNION branch winning_team "winning_pitcher_id" (tag "AWP") rs
  UNION branch losing_team "losing_pitcher_id" (tag "ALP") rs
  UNION branch winning_team "saving_pitcher_id" (tag "ASP") rs
  UNION branch winning_team "winning_rbi_batter_id" (tag "AWB") rs
  UNION branch (λ r, col r "v_name") "v_starting_pitcher_id" (tag "PSP") rs
  UNION branch (λ r, col r "h_name") "h_starting_pitcher_id" (tag "PSP") rs.

Definition c2 : command :=
  insert_select IGNORE "person_appearance" (Some columns) "game_log" select.

(** The names the template's placeholders expand to. *)
Definition name_col (hv : string) : string := hv +:+ "_name".
Definition player_id_col (hv : string) (num : Z) : string :=
  hv +:+ "_player_" +:+ pretty num +:+ "_id".
Definition def_pos_col (hv : string) (num : Z) : string :=
  hv +:+ "_player_" +:+ pretty num +:+ "_def_pos".

Definition offense (num : Z) (r : row) : value :=
  VText ("O" +:+ pretty num).

Definition defense (hv : string) (num : Z) (r : row) : value :=
  sql_concat (VText "D") (sql_cast_int (col r (def_pos_col hv num))).

Definition template_select (hv : string) (num : Z) (rs : list row)
    : list tuple :=
  branch (λ r, col r (name_col hv)) (player_id_col hv num) (offense num) rs
  UNION
  branch (λ r, col r (name_col hv)) (player_id_col hv num)
         (defense hv num) rs.

Definition template (hv : string) (num : Z) : command :=
  insert_select ABORT "person_appearance" (Some columns) "game_log"
    (template_select hv num).

(** The eighteen (side, slot) pairs, in the order the loops visit
    them. *)
Definition query_vars : list (string * Z) :=
  hv ← ["h"; "v"]; num ← seqZ 1 9; [(hv, num)].

Definition fill (d : db) : result db :=
  d ← run_command c1 d;
  d ← run_command c2 d;
  for_each query_vars (λ q, run_command (template q.1 q.2)) d.

End PersonAppearance.

(** *** In[26]: dropping the raw tables *)

Module Cleanup.

Definition tables : list string :=
  ["game_log"; "park_codes"; "team_codes"; "person_codes"].

Definition drop_all : db → result db :=
  for_each tables (λ t, run_command (λ fk, drop_table fk false t)).

End Cleanup.

(** *** The whole script, top to bottom

    The statements that change the store, in the order the script runs
    them.  The queries in between ([run_query], [show_tables]) only read
    the store and are left out. *)

Record inputs := Inputs {
  log : frame;
  person : frame;
  park : frame;
  team : frame;
  appearance_type : frame
}.

(** In[13] to In[20]: the raw tables, the derived game_id and the tables
    that game and the appearance tables refer to. *)
Definition reference_tables (inp : inputs) (d : db) : result db :=
  d ← GameLog.load
        (GameLog.tables (log inp) (person inp) (team inp) (park inp)) d;
  d ← GameLog.add_game_id d;
  d ← run_command Person.c1 d;
  d ← run_command Person.c2 d;
  d ← run_command Park.c1 d;
  d ← run_command Park.c2 d;
  d ← run_command League.c1 d;
  d ← run_command League.c2 d;
  d ← run_command AppearanceType.c1 d;
  d ← run_command AppearanceType.c2 d;
  d ← AppearanceType.load (appearance_type inp) d;
  d ← run_command Team.c1 d;
  run_command Team.c2 d.

Definition migrate (inp : inputs) (d : db) : result db :=
  d ← reference_tables inp d;
  d ← run_command Game.c1 d;
  d ← run_command Game.c2 d;
  d ← run_command TeamAppearance.c1 d;
  d ← run_command TeamAppearance.c2 d;
  d ← run_command PersonAppearance.c0 d;
  d ← PersonAppearance.fill d;
  Cleanup.drop_all d.

(** The store a run leaves, the empty store when it raised. *)
Definition unwrap (r : result db) : db :=
  match r with
  | Ok d => d
  | Raise _ => ∅
  end.

(** ** Sample inputs

    The columns of the CSV files that the script reads, and a small data
    set over them: two teams, one park, five people, one game. *)

Module Sample.

Definition record (fields : list (string * value)) : row :=
  list_to_map fields.

Definition side_columns (hv : string) : list (string * decltype) :=
  [(hv +:+ "_name", TEXT); (hv +:+ "_league", TEXT);
   (hv +:+ "_score", INTEGER); (hv +:+ "_line_score", TEXT);
   (hv +:+ "_manager_id", TEXT); (hv +:+ "_starting_pitcher_id", TEXT)]
  ++ ((λ c, (hv +:+ "_" +:+ c, INTEGER)) <$>
      ["at_bats"; "hits"; "doubles"; "triples"; "homeruns"; "rbi";
       "sacrifice_hits"; "sacrifice_flies"; "hit_by_pitch"; "walks";
       "intentional_walks"; "strikeouts"; "stolen_bases";
       "caught_stealing"; "grounded_into_double";
       "first_catcher_interference"; "left_on_base"; "pitchers_used";
       "individual_earned_runs"; "team_earned_runs"; "wild_pitches";
       "balks"; "putouts"; "assists"; "errors"; "passed_balls";
       "double_plays"; "triple_plays"])
  ++ (num ← seqZ 1 9;
      [(PersonAppearance.player_id_col hv num, TEXT);
       (PersonAppearance.def_pos_col hv num, INTEGER)]).

Definition game_log_columns : list (string * decltype) :=
  [("date", INTEGER); ("number_of_game", INTEGER); ("park_id", TEXT);
   ("length_outs", INTEGER); ("day_night", TEXT); ("completion", TEXT);
   ("forefeit", TEXT); ("protest", TEXT); ("attendance", INTEGER);
   ("length_minutes", INTEGER); ("additional_info", TEXT);
   ("acquisition_info", TEXT);
   ("hp_umpire_id", TEXT); ("1b_umpire_id", TEXT); ("2b_umpire_id", TEXT);
   ("3b_umpire_id", TEXT); ("lf_umpire_id", TEXT); ("rf_umpire_id", TEXT);
   ("winning_pitcher_id", TEXT); ("losing_pitcher_id", TEXT);
   ("saving_pitcher_id", TEXT); ("winning_rbi_batter_id", TEXT)]
  ++ side_columns "h" ++ side_columns "v".

Definition person_codes : frame :=
  Frame [("id", TEXT); ("last", TEXT); ("first", TEXT)]
    [ record [("id", VText "p1"); ("last", VText "Mathews"); ("first", VText "Bobby")];
      record [("id", VText "p2"); ("last", VText "Pratt"); ("first", VText "Al")];
      record [("id", VText "m1"); ("last", VText "Lennon"); ("first", VText "Bill")];
      record [("id", VText "m2"); ("last", VText "Pabor"); ("first", VText "Charlie")];
      record [("id", VText "u1"); ("last", VText "Boake"); ("first", VText "John")] ].

Definition park_codes : frame :=
  Frame [("park_id", TEXT); ("name", TEXT); ("aka", TEXT); ("city", TEXT);
         ("state", TEXT); ("notes", TEXT)]
    [ record [("park_id", VText "FOR01"); ("name", VText "Hamilton Field"); ("city", VText "Fort Wayne"); ("state", VText "IN")] ].

Definition team_codes : frame :=
  Frame [("team_id", TEXT); ("league", TEXT); ("city", TEXT);
         ("nickname", TEXT); ("franch_id", TEXT)]
    [ record [("team_id", VText "FW1"); ("league", VText "NL"); ("city", VText "Fort Wayne"); ("nickname", VText "Kekiongas"); ("franch_id", VText "FW1")];
      record [("team_id", VText "CL1"); ("league", VText "NL"); ("city", VText "Cleveland"); ("nickname", VText "Forest Citys"); ("franch_id", VText "CL1")] ].

Definition appearance_types : frame :=
  Frame [("appearance_type_id", TEXT); ("name", TEXT); ("category", TEXT)]
    ((λ p : string * string * string,
        record [("appearance_type_id", VText p.1.1); ("name", VText p.1.2); ("category", VText p.2)]) <$>
     [("O1", "Batter 1", "offense"); ("O2", "Batter 2", "offense");
      ("D1", "Pitcher", "defense"); ("D3", "1st Base", "defense");
      ("D10", "Unknown Position", "defense");
      ("UHP", "Home Plate", "umpire"); ("MM", "Manager", "manager");
      ("AWP", "Winning Pitcher", "award");
      ("ALP", "Losing Pitcher", "award");
      ("PSP", "Starting Pitcher", "pitcher")]).

(** The opening game of 1871: Cleveland at Fort Wayne, 0 to 2. *)
Definition game1 : row :=
  record [("date", VInt 18710504); ("number_of_game", VInt 0); ("park_id", VText "FOR01"); ("day_night", VText "D"); ("h_name", VText "FW1"); ("v_name", VText "CL1"); ("h_league", VText "NL"); ("v_league", VText "NL"); ("h_score", VInt 2); ("v_score", VInt 0); ("hp_umpire_id", VText "u1"); ("h_manager_id", VText "m1"); ("v_manager_id", VText "m2"); ("winning_pitcher_id", VText "p1"); ("losing_pitcher_id", VText "p2"); ("h_starting_pitcher_id", VText "p1"); ("v_starting_pitcher_id", VText "p2"); ("h_player_1_id", VText "p1"); ("h_player_1_def_pos", VInt 1); ("v_player_1_id", VText "p2"); ("v_player_1_def_pos", VInt 1)].

Definition update (fields : list (string * value)) (r : row) : row :=
  foldr (λ f, <[f.1 := f.2]>) r fields.

Definition no_home_league : row := update [("h_league", VNull)] game1.
Definition same_team : row := update [("v_name", VText "FW1")] game1.
Definition position_zero : row :=
  update [("h_player_1_def_pos", VInt 0)] game1.
Definition position_null : row :=
  update [("h_player_1_def_pos", VNull)] game1.

Definition game_log (rs : list row) : frame := Frame game_log_columns rs.

Definition data (rs : list row) : inputs :=
  Inputs (game_log rs) person_codes park_codes team_codes appearance_types.

(** A store holding only a game_log table whose ids are filled in. *)
Definition keyed_table : table :=
  Table [("date", INTEGER); ("h_name", TEXT); ("number_of_game", INTEGER);
         ("game_id", TEXT)] NoKey []
    [record [("date", VInt 18710504); ("h_name", VText "FW1");
             ("number_of_game", VInt 0);
             ("game_id", VText "18710504FW10")]].

Definition keyed_log : db := {[ "game_log" := keyed_table ]}.

Definition table_of (name : string) (d : db) : table :=
  default (Table [] NoKey [] []) (d !! name).

(** The first row of the game_log table of a store. *)
Definition logged (d : db) : row :=
  default ∅ (tbl_rows (table_of "game_log" d) !! 0%nat).

(** The stores the script goes through on [game1]: after loading the
    frames, before the game table, and before team_appearance. *)
Definition loaded : db :=
  unwrap (GameLog.load (GameLog.tables (game_log [game1]) person_codes
                                       team_codes park_codes) ∅).

Definition before_game : db := unwrap (reference_tables (data [game1]) ∅).

Definition with_game : db :=
  unwrap (run_command Game.c1 before_game ≫= run_command Game.c2).

Definition with_team_appearance : db :=
  unwrap (run_command TeamAppearance.c1 with_game
          ≫= run_command TeamAppearance.c2).


End Sample.

(** ** Reading a store *)

Definition table_rows (name : string) (d : db) : list row :=
  match d !! name with
  | Some t => tbl_rows t
  | None => []
  end.

(** The statement went through and its outcome satisfies [P]. *)
Definition after {A : Type} (r : result A) (P : A → Prop) : Prop :=
  match r with
  | Ok a => P a
  | Raise _ => False
  end.

Definition afterb {A : Type} (r : result A) (p : A → bool) : bool :=
  match r with
  | Ok a => p a
  | Raise _ => false
  end.



(** ** Keys *)

(** The key of a row and whether it is complete (no NULL in it). *)
Definition key_of (cs : list string) (x : row) : tuple := col x <$> cs.

Definition full_key (cs : list string) (x : row) : Prop :=
  Forall (λ c, col x c ≠ VNull) cs.

(** No two rows with a complete key share it. *)
Definition keys_unique (cs : list string) (rs : list row) : Prop :=
  NoDup (key_of cs <$> filter (full_key cs) rs).

(** ** What the loader leaves *)

(** The table [to_sql] makes of a frame: the frame's columns, no key, and
    each frame row stored column by column. *)
Definition frame_table (data : frame) : table :=
  Table (fr_cols data) NoKey []
    ((λ r, store_row (Table (fr_cols data) NoKey [] []) (fr_cols data).*1
                     (col r <$> (fr_cols data).*1)) <$> fr_rows data).

(** ** The reference tables as their CREATE statements make them *)

Definition person_created : table :=
  Table [("person_id", TEXT); ("first_name", TEXT); ("last_name", TEXT)]
        (Key ["person_id"]) [] [].

Definition park_created : table :=
  Table [("park_id", TEXT); ("name", TEXT); ("nickname", TEXT);
         ("city", TEXT); ("state", TEXT); ("notes", TEXT)]
        (Key ["park_id"]) [] [].

Definition league_created : table :=
  Table [("league_id", TEXT); ("name", TEXT)] (Key ["league_id"]) [] [].

Definition team_created : table :=
  Table [("team_id", TEXT); ("league_id", TEXT); ("city", TEXT);
         ("nickname", TEXT); ("franch_id", TEXT)]
        (Key ["team_id"]) [FKey "league_id" "league" "league_id"] [].

Definition appearance_type_created : table :=
  Table [("appearance_type_id", TEXT); ("name", TEXT); ("category", TEXT)]
        (Key ["appearance_type_id"]) [] [].

Definition person_appearance_created : table :=
  Table [("appearance_id", INTEGER); ("person_id", TEXT); ("team_id", TEXT);
         ("game_id", TEXT); ("appearance_type_id", NOTYPE)]
        (RowidKey "appearance_id")
        [FKey "person_id" "person" "person_id";
         FKey "team_id" "team" "team_id";
         FKey "game_id" "game" "game_id";
         FKey "appearance_type_id" "appearance_type" "appearance_type_id"]
        [].

(** ** Foreign keys *)

(** Row [x] satisfies foreign key [fk] in store [d]: the child column is
    NULL, or some row of the parent table holds it in the referenced
    column (compared under that column's affinity). *)
Definition resolves (d : db) (fk : fkey) (x : row) : Prop :=
  col x (fk_col fk) = VNull ∨
  ∃ p l, d !! fk_table fk = Some p ∧ l ∈ tbl_rows p ∧
         col l (fk_ref fk)
         = apply_affinity (col_type p (fk_ref fk)) (col x (fk_col fk)).

(** ** Row numbers *)

(** The rows carry 1, 2, 3, ... in column [c], in the order they stand. *)
Definition numbered (c : string) (rs : list row) : Prop :=
  ∀ (i : nat) x, rs !! i = Some x → col x c = VInt (Z.of_nat i + 1).

(** What the statements of In[23] keep true of a store that started as
    [d0]: person_appearance has the schema of its CREATE statement, its
    rows are numbered in the order they stand and satisfy its foreign
    keys, and every other table is as in [d0]. *)
Definition appearances_kept (d0 d : db) : Prop :=
  ∃ rs,
    d !! "person_appearance" = Some (with_rows person_appearance_created rs) ∧
    numbered "appearance_id" rs ∧
    Forall (λ x, Forall (λ fk, resolves d fk x)
                        (tbl_fks person_appearance_created)) rs ∧
    ∀ n, n ≠ "person_appearance" → d !! n = d0 !! n.

(** ** The tables of a store *)

(** The eight tables of the normalised schema. *)
Definition normalized_tables : list string :=
  ["person"; "park"; "league"; "appearance_type"; "team"; "game";
   "team_appearance"; "person_appearance"].

(** A tuple of four values. *)
Definition four (v : tuple) : Prop := ∃ g tm p role, v = [g; tm; p; role].

(** Row [x] of person_appearance holds the selected tuple [v] (game,
    team, person, role), each value under its column's affinity. *)
Definition appearance_stored (v : tuple) (x : row) : Prop :=
  match v with
  | [g; tm; p; role] =>
      col x "game_id" = apply_affinity TEXT g ∧
      col x "team_id" = apply_affinity TEXT tm ∧
      col x "person_id" = apply_affinity TEXT p ∧
      col x "appearance_type_id" = role
  | _ => False
  end.

(** The tuples that In[23] selects from the rows of game_log, in the
    order of its statements. *)
Definition selected_appearances (rs : list row) : list tuple :=
  PersonAppearance.select rs
  ++ (q ← PersonAppearance.query_vars;
      PersonAppearance.template_select q.1 q.2 rs).

(** ** In[24]: counting games

    [SELECT COUNT(DISTINCT c) FROM t]: the number of distinct values of
    column [c] that are not NULL. *)
Definition count_distinct (c : string) (rs : list row) : nat :=
  List.length (remove_dups (filter (λ v, v ≠ VNull) ((λ r, col r c) <$> rs))).

(** ** More sample stores

    Stores that the cells of the script leave on the sample data, and a
    person_codes frame with a row that has no id. *)

Module Scenario.

Definition with_ids : db := unwrap (GameLog.add_game_id Sample.loaded).

Definition with_person : db :=
  unwrap (run_command Person.c1 Sample.loaded ≫= run_command Person.c2).

Definition with_park : db :=
  unwrap (run_command Park.c1 Sample.loaded ≫= run_command Park.c2).

Definition with_league : db :=
  unwrap (run_command League.c1 Sample.loaded ≫= run_command League.c2).

Definition with_team : db :=
  unwrap (run_command Team.c1 with_league ≫= run_command Team.c2).

Definition nameless : frame :=
  Frame [("id", TEXT); ("last", TEXT); ("first", TEXT)]
    [ Sample.record [("last", VText "Doe"); ("first", VText "John")] ].

Definition anonymous : db :=
  unwrap (d ← to_sql false "person_codes" nameless ∅;
          d ← run_command Person.c1 d;
          run_command Person.c2 d).

Definition anonymous_again : db := unwrap (run_command Person.c2 anonymous).

Definition appearance_types : db :=
  unwrap (d ← run_command AppearanceType.c1 ∅;
          d ← run_command AppearanceType.c2 d;
          AppearanceType.load Sample.appearance_types d).

Definition filled : db :=
  unwrap (PersonAppearance.fill Sample.with_team_appearance).

Definition cleaned : db := unwrap (Cleanup.drop_all filled).

Definition migrated : db := unwrap (migrate (Sample.data [Sample.game1]) ∅).

(** The first row of a table. *)
Definition first_row (name : string) (d : db) : row :=
  default ∅ (table_rows name d !! 0%nat).

End Scenario.

(** * Properties *)

Local Open Scope list_scope.

(** A decidable property of an outcome is settled by running the
    statement. *)
Lemma after_true {A : Type} (r : result A) (P : A → Prop)
    `{!∀ a, Decision (P a)} :
  afterb r (λ a, bool_decide (P a)) = true → after r P.
Proof. destruct r; simpl; [apply bool_decide_eq_true_1 | discriminate]. Qed.

Ltac by_running := refine (after_true _ _ _); vm_compute; reflexivity.

(** A decidable closed fact is settled by evaluating its decision. *)
Ltac by_deciding :=
  refine (bool_decide_eq_true_1 _ _); vm_compute; reflexivity.

(** ** Compound selects *)

Lemma elem_of_sql_union (a b : list tuple) (t : tuple) :
  t ∈ a UNION b ↔ t ∈ a ∨ t ∈ b.
Proof.
  unfold sql_union.
  rewrite merge_sort_Permutation, elem_of_remove_dups, elem_of_app.
  reflexivity.
Qed.


Lemma elem_of_branch team person role (rs : list row) (t : tuple) :
  t ∈ PersonAppearance.branch team person role rs ↔
  ∃ r, r ∈ rs ∧ col r person ≠ VNull ∧
       t = [col r "game_id"; team r; col r person; role r].
Proof.
  unfold PersonAppearance.branch, where_not_null.
  rewrite list_elem_of_fmap. setoid_rewrite list_elem_of_filter.
  split.
  - intros (r & -> & Hnn & Hr). by exists r.
  - intros (r & Hr & Hnn & ->). by exists r.
Qed.



(** ** Awards *)



(** ** Roles and teams *)

Lemma elem_of_template_select hv num (rs : list row) (t : tuple) :
  t ∈ PersonAppearance.template_select hv num rs ↔
  ∃ r, r ∈ rs ∧ col r (PersonAppearance.player_id_col hv num) ≠ VNull ∧
    (t = [col r "game_id"; col r (PersonAppearance.name_col hv);
          col r (PersonAppearance.player_id_col hv num);
          PersonAppearance.offense num r] ∨
     t = [col r "game_id"; col r (PersonAppearance.name_col hv);
          col r (PersonAppearance.player_id_col hv num);
          PersonAppearance.defense hv num r]).
Proof.
  unfold PersonAppearance.template_select.
  rewrite elem_of_sql_union, !elem_of_branch.
  split.
  - intros [(r & ? & ? & ?)|(r & ? & ? & ?)]; exists r; tauto.
  - intros (r & ? & ? & [?|?]); [left|right]; exists r; tauto.
Qed.






(** ** Defensive positions *)

(** C1 (as amended).  For a game_log row with the player id present, the
    template's select yields a defensive tuple for that player; its role
    is "D" followed by the integer value of the position code (so code 0
    gives "D0") and is NULL when the position code is NULL. *)
Theorem defensive_tag (hv : string) (num : Z) (rs : list row) (r : row) :
  r ∈ rs →
  col r (PersonAppearance.player_id_col hv num) ≠ VNull →
  [col r "game_id"; col r (PersonAppearance.name_col hv);
   col r (PersonAppearance.player_id_col hv num);
   PersonAppearance.defense hv num r]
    ∈ PersonAppearance.template_select hv num rs ∧
  (∀ z, col r (PersonAppearance.def_pos_col hv num) = VInt z →
        PersonAppearance.defense hv num r = VText ("D" +:+ pretty z)) ∧
  (col r (PersonAppearance.def_pos_col hv num) = VNull →
   PersonAppearance.defense hv num r = VNull).
Proof.
  intros Hr Hnn. split; [|split].
  - apply elem_of_template_select. exists r. tauto.
  - intros z Hz. unfold PersonAppearance.defense. by rewrite Hz.
  - intros Hz. unfold PersonAppearance.defense. by rewrite Hz.
Qed.

Lemma defensive_tag_witness :
  [VText "g"; VText "FW1"; VText "p1"; VText "D0"] ∈
    PersonAppearance.template_select "h" 1
      [Sample.record [("game_id", VText "g"); ("h_name", VText "FW1");
                      ("h_player_1_id", VText "p1");
                      ("h_player_1_def_pos", VInt 0)]].
Proof.
  refine (proj1 (defensive_tag "h" 1 _
    (Sample.record [("game_id", VText "g"); ("h_name", VText "FW1");
                    ("h_player_1_id", VText "p1");
                    ("h_player_1_def_pos", VInt 0)]) _ _)).
  - apply list_elem_of_here.
  - vm_compute. discriminate.
Defined.

(** C1, as first stated, fails: whatever id the unknown-position category
    has, position code 0 is tagged "D0" and a NULL position code gives a
    NULL role, which is stored as such. *)
Lemma unknown_position_not_assigned :
  PersonAppearance.defense "h" 1 Sample.position_zero = VText "D0" ∧
  PersonAppearance.defense "h" 1 Sample.position_null = VNull ∧
  ¬ (∃ unknown : string, ∀ hv num (r : row),
       col r (PersonAppearance.player_id_col hv num) ≠ VNull →
       col r (PersonAppearance.def_pos_col hv num) = VInt 0 ∨
       col r (PersonAppearance.def_pos_col hv num) = VNull →
       PersonAppearance.defense hv num r = VText unknown) ∧
  after (migrate (Sample.data [Sample.position_null]) ∅) (λ d,
    Exists (λ x, col x "person_id" = VText "p1" ∧
                 col x "team_id" = VText "FW1" ∧
                 col x "appearance_type_id" = VNull)
           (table_rows "person_appearance" d)).
Proof.
  split; [vm_compute; reflexivity|].
  split; [vm_compute; reflexivity|].
  split; [|by_running].
  intros [unknown H].
  specialize (H "h" 1 Sample.position_null).
  assert (E : PersonAppearance.defense "h" 1 Sample.position_null = VNull)
    by (vm_compute; reflexivity).
  rewrite E in H. discriminate H.
  - vm_compute. discriminate.
  - right. vm_compute. reflexivity.
Qed.

(** Under the sample catalog, which has no "D0" entry, the statement that
    would store position code 0 is refused and the script stops. *)
Example position_zero_refused :
  migrate (Sample.data [Sample.position_zero]) ∅ = Raise ForeignKeyFailed.
Proof. vm_compute. reflexivity. Qed.

(** ** The guarded ALTER TABLE *)

(** C2 (as amended).  The handler around the ALTER TABLE discards every
    failure of that statement: whatever it raises, the script goes on
    with the store unchanged.  An existing game_id column and a missing
    game_log table are two such failures. *)
Theorem alter_guard_discards_every_failure (d : db) :
  (∀ e, run_command GameLog.c1 d = Raise e →
        try_except_pass (run_command GameLog.c1) d = Ok d) ∧
  (∀ d', run_command GameLog.c1 d = Ok d' →
         try_except_pass (run_command GameLog.c1) d = Ok d') ∧
  (∀ t, d !! "game_log" = Some t → "game_id" ∈ (tbl_cols t).*1 →
        run_command GameLog.c1 d = Raise (DuplicateColumn "game_id")) ∧
  (d !! "game_log" = None →
   run_command GameLog.c1 d = Raise (NoSuchTable "game_log")).
Proof.
  unfold try_except_pass.
  split; [|split; [|split]].
  - by intros e ->.
  - by intros d' ->.
  - intros t Ht Hin.
    unfold run_command, GameLog.c1, alter_add_column, get_table.
    rewrite Ht. simpl. by rewrite bool_decide_eq_true_2.
  - intros Hnone.
    unfold run_command, GameLog.c1, alter_add_column, get_table.
    by rewrite Hnone.
Qed.

(** C2, as first stated, fails: without a game_log table the ALTER TABLE
    raises "no such table", and the handler discards that too. *)
Lemma alter_guard_hides_missing_table :
  ¬ (∀ (d : db) e, run_command GameLog.c1 d = Raise e →
       e ≠ DuplicateColumn "game_id" →
       try_except_pass (run_command GameLog.c1) d = Raise e).
Proof.
  intros H. specialize (H ∅ (NoSuchTable "game_log")).
  assert (E : try_except_pass (run_command GameLog.c1) ∅ = Ok ∅)
    by (vm_compute; reflexivity).
  rewrite E in H. discriminate H.
  - vm_compute. reflexivity.
  - discriminate.
Qed.

(** ** The game_id update *)

Lemma update_set_Ok name c e w (d : db) (t : table) :
  d !! name = Some t → c ∈ (tbl_cols t).*1 →
  update_set name c e w d =
  Ok (<[name := with_rows t
         ((λ r, if w r then <[c := apply_affinity (col_type t c) (e r)]> r
                else r) <$> tbl_rows t)]> d).
Proof.
  intros Ht Hc. unfold update_set, get_table. rewrite Ht. simpl.
  by rewrite bool_decide_eq_true_2.
Qed.

(** C10.  On a game_log table that has the game_id column, the UPDATE
    goes through and changes nothing but the rows whose game_id is NULL:
    a row whose game_id is not NULL is found again at the same place,
    equal in every column; a row whose game_id is NULL differs from the
    old one in its game_id only. *)
Theorem game_id_update_frame (d : db) (t : table) :
  d !! "game_log" = Some t →
  "game_id" ∈ (tbl_cols t).*1 →
  ∃ t', run_command GameLog.c2 d = Ok (<["game_log" := t']> d) ∧
        tbl_cols t' = tbl_cols t ∧
        List.length (tbl_rows t') = List.length (tbl_rows t) ∧
        (∀ i r, tbl_rows t !! i = Some r → col r "game_id" ≠ VNull →
                tbl_rows t' !! i = Some r) ∧
        (∀ i r, tbl_rows t !! i = Some r → col r "game_id" = VNull →
                ∃ r', tbl_rows t' !! i = Some r' ∧
                      ∀ c, c ≠ "game_id" → col r' c = col r c).
Proof.
  intros Ht Hc. eexists. split; [|split; [|split; [|split]]].
  - unfold run_command, GameLog.c2. by apply update_set_Ok.
  - reflexivity.
  - simpl. by rewrite length_fmap.
  - intros i r Hi Hnn. simpl. rewrite list_lookup_fmap, Hi. simpl.
    destruct (col r "game_id"); done.
  - intros i r Hi Hn. simpl. rewrite list_lookup_fmap, Hi. simpl.
    rewrite Hn. simpl. eexists. split; [reflexivity|].
    intros c Hne. unfold col. by rewrite lookup_insert_ne.
Qed.

Lemma game_id_update_frame_witness :
  ∃ t', run_command GameLog.c2 Sample.keyed_log
          = Ok (<["game_log" := t']> Sample.keyed_log) ∧
        tbl_cols t' = tbl_cols Sample.keyed_table ∧
        List.length (tbl_rows t') = List.length (tbl_rows Sample.keyed_table) ∧
        (∀ i r, tbl_rows Sample.keyed_table !! i = Some r →
                col r "game_id" ≠ VNull → tbl_rows t' !! i = Some r) ∧
        (∀ i r, tbl_rows Sample.keyed_table !! i = Some r →
                col r "game_id" = VNull →
                ∃ r', tbl_rows t' !! i = Some r' ∧
                      ∀ c, c ≠ "game_id" → col r' c = col r c).
Proof.
  apply (game_id_update_frame Sample.keyed_log Sample.keyed_table).
  - vm_compute. reflexivity.
  - apply (bool_decide_unpack _). vm_compute. exact I.
Defined.

(** ** Running the script twice *)

Lemma drop_appearance_type_refused (d : db) (t : table) :
  d !! "appearance_type" = Some t →
  referenced d "appearance_type" t = true →
  run_command AppearanceType.c1 d = Raise ForeignKeyFailed.
Proof.
  intros Ht Href.
  unfold run_command, AppearanceType.c1, drop_table.
  by rewrite Ht, Href.
Qed.

(** C3, on the code: the first run over the sample data goes through; in
    the store it leaves, person_appearance rows refer to appearance_type,
    so the second run's DROP TABLE IF EXISTS appearance_type is refused
    and the second run raises instead of completing. *)
Theorem second_run_raises :
  after (migrate (Sample.data [Sample.game1]) ∅) (λ d,
    migrate (Sample.data [Sample.game1]) d = Raise ForeignKeyFailed ∧
    run_command AppearanceType.c1 d = Raise ForeignKeyFailed).
Proof. by_running. Qed.

Lemma key_of_eq cs (x y : row) :
  Forall (λ c, col x c = col y c) cs ↔ key_of cs x = key_of cs y.
Proof.
  unfold key_of. induction cs as [|c cs IH].
  - split; [done | constructor].
  - rewrite Forall_cons, !fmap_cons. split.
    + intros [-> H]. f_equal. by apply IH.
    + intros [= -> H]. split; [done | by apply IH].
Qed.

Lemma full_key_eq cs (x y : row) :
  key_of cs x = key_of cs y → full_key cs y → full_key cs x.
Proof.
  intros Heq%key_of_eq Hy. unfold full_key in *.
  rewrite Forall_forall in *. intros c Hc. rewrite (Heq c Hc). by apply Hy.
Qed.

Lemma key_conflict_spec (t : table) cs (rs : list row) (r : row) :
  tbl_pk t = Key cs →
  key_conflict t rs r = true ↔
  full_key cs r ∧ key_of cs r ∈ key_of cs <$> filter (full_key cs) rs.
Proof.
  intros Hpk. unfold key_conflict. rewrite Hpk, bool_decide_eq_true.
  rewrite Exists_exists, list_elem_of_fmap.
  setoid_rewrite list_elem_of_filter.
  split.
  - intros (x & Hx & Hall).
    assert (Hfull : full_key cs r).
    { unfold full_key. eapply Forall_impl; [exact Hall|]. by intros c [? _]. }
    assert (Heq : key_of cs x = key_of cs r).
    { apply key_of_eq. eapply Forall_impl; [exact Hall|]. by intros c [_ ?]. }
    split; [done|]. exists x. split; [done|]. split; [|done].
    by apply (full_key_eq _ _ r).
  - intros (Hfull & x & Heq & Hfx & Hx).
    exists x. split; [done|].
    symmetry in Heq. apply key_of_eq in Heq.
    unfold full_key in Hfull. rewrite Forall_forall in *.
    intros c Hc. split; [by apply Hfull | by apply Heq].
Qed.

Lemma keys_unique_snoc cs (rs : list row) (r : row) :
  keys_unique cs rs →
  ¬ (full_key cs r ∧ key_of cs r ∈ key_of cs <$> filter (full_key cs) rs) →
  keys_unique cs (rs ++ [r]).
Proof.
  unfold keys_unique. intros Hnd Hfresh.
  rewrite filter_app, fmap_app. apply NoDup_app. split; [done|].
  rewrite filter_cons, filter_nil.
  destruct (decide (full_key cs r)) as [Hf|Hf]; simpl.
  - split; [|apply NoDup_singleton].
    intros k Hk Hk'. apply list_elem_of_singleton in Hk' as ->. tauto.
  - split; [|constructor]. intros k _ Hk'. by apply elem_of_nil in Hk'.
Qed.

(** ** INSERT OR IGNORE into a table with a PRIMARY KEY *)

Lemma assign_rowid_key (t : table) cs (rs : list row) (r : row) :
  tbl_pk t = Key cs → assign_rowid t rs r = r.
Proof. unfold assign_rowid. by intros ->. Qed.

Lemma key_elem_of_app cs (rs new : list row) (k : tuple) :
  k ∈ key_of cs <$> filter (full_key cs) rs →
  k ∈ key_of cs <$> filter (full_key cs) (rs ++ new).
Proof. rewrite filter_app, fmap_app, elem_of_app. tauto. Qed.

(** What an INSERT OR IGNORE leaves in a keyed table: the old rows
    followed by stored tuples; every tuple is either stored or shares its
    complete key with a stored row; keys stay unique. *)
Lemma insert_tuples_key (d : db) name (t : table) cs cols :
  tbl_pk t = Key cs →
  ∀ ts rs bad rs' bad',
    insert_tuples IGNORE d name t cols rs bad ts = Ok (rs', bad') →
    (∃ new, rs' = rs ++ new ∧
            Forall (λ x, ∃ v, v ∈ ts ∧ x = store_row t cols v) new) ∧
    (∀ v, v ∈ ts →
          store_row t cols v ∈ rs' ∨
          (full_key cs (store_row t cols v) ∧
           key_of cs (store_row t cols v)
             ∈ key_of cs <$> filter (full_key cs) rs')) ∧
    (keys_unique cs rs → keys_unique cs rs').
Proof.
  intros Hpk ts. induction ts as [|v ts IH]; intros rs bad rs' bad' Hins.
  - injection Hins as <- <-. split; [|split].
    + exists []. by rewrite app_nil_r.
    + intros v Hv. by apply elem_of_nil in Hv.
    + done.
  - simpl in Hins. rewrite (assign_rowid_key t cs) in Hins by done.
    destruct (key_conflict t rs (store_row t cols v)) eqn:Hc.
    + apply IH in Hins as ((new & -> & Hnew) & Hrep & Huniq).
      split; [|split].
      * exists new. split; [done|].
        eapply Forall_impl; [exact Hnew|].
        intros x (w & Hw & ->). exists w. split; [by right | done].
      * intros w [->|Hw]%elem_of_cons; [|by apply Hrep].
        right. apply (key_conflict_spec t cs) in Hc as [Hf Hk]; [|done].
        split; [done | by apply key_elem_of_app].
      * done.
    + apply IH in Hins as ((new & -> & Hnew) & Hrep & Huniq).
      split; [|split].
      * exists (store_row t cols v :: new). split.
        { by rewrite <- app_assoc. }
        constructor.
        { exists v. split; [by left | done]. }
        eapply Forall_impl; [exact Hnew|].
        intros x (w & Hw & ->). exists w. split; [by right | done].
      * intros w [->|Hw]%elem_of_cons; [|by apply Hrep].
        left. rewrite !elem_of_app, list_elem_of_singleton. tauto.
      * intros Hu. apply Huniq. apply keys_unique_snoc; [done|].
        rewrite <- (key_conflict_spec t cs) by done. by rewrite Hc.
Qed.

(** Unfolding a successful INSERT ... SELECT. *)
Lemma insert_select_Ok oc name cols source select fk (d d' : db) :
  insert_select oc name cols source select fk d = Ok d' →
  ∃ src t rs' bad,
    d !! source = Some src ∧ d !! name = Some t ∧
    insert_tuples oc d name t (default (tbl_cols t).*1 cols) (tbl_rows t)
                  false (select (tbl_rows src)) = Ok (rs', bad) ∧
    d' = <[name := with_rows t rs']> d.
Proof.
  unfold insert_select, rows_of, insert_into, get_table.
  destruct (d !! source) as [src|] eqn:Hsrc; simpl; [|done].
  destruct (d !! name) as [t|] eqn:Ht; simpl; [|done].
  destruct (if fk then missing_parent d t else None); [done|].
  destruct (insert_tuples _ _ _ _ _ _ _ _) as [[rs' bad]|] eqn:Hins;
    simpl; [|done].
  destruct (fk && bad); [done|].
  intros [= <-]. by exists src, t, rs', bad.
Qed.

Lemma filter_none {A} (P : A → Prop) `{!∀ x, Decision (P x)} (l : list A) :
  (∀ x, x ∈ l → ¬ P x) → filter P l = [].
Proof.
  induction l as [|x l IH]; intros Hno; [done|].
  rewrite filter_cons, decide_False by (apply Hno; by left).
  apply IH. intros y Hy. apply Hno. by right.
Qed.

(** At most one row carries a given complete key. *)
Lemma filter_key_unique cs (P : row → Prop) `{!∀ x, Decision (P x)}
    (k : tuple) (rs : list row) :
  keys_unique cs rs →
  (∀ x, P x → full_key cs x ∧ key_of cs x = k) →
  (List.length (filter P rs) ≤ 1)%nat.
Proof.
  intros Hu HP. unfold keys_unique in Hu.
  induction rs as [|x rs IH]; [simpl; lia|].
  rewrite filter_cons in Hu. rewrite filter_cons.
  destruct (decide (P x)) as [HPx|HPx].
  - destruct (HP x HPx) as [Hfx Hkx].
    rewrite decide_True in Hu by done.
    rewrite fmap_cons in Hu. apply NoDup_cons in Hu as [Hnotin _].
    rewrite (filter_none P rs); [simpl; lia|].
    intros y Hy HPy. destruct (HP y HPy) as [Hfy Hky].
    apply Hnotin. rewrite Hkx, <- Hky.
    apply list_elem_of_fmap. exists y. split; [done|].
    by apply list_elem_of_filter.
  - apply IH. destruct (decide (full_key cs x)).
    + rewrite fmap_cons in Hu. by apply NoDup_cons in Hu as [_ ?].
    + done.
Qed.

(** Rows picked by a property that forces a complete key are pairwise
    distinct. *)
Lemma NoDup_filter_keys cs (P : row → Prop) `{!∀ x, Decision (P x)}
    (rs : list row) :
  keys_unique cs rs →
  (∀ x, x ∈ rs → P x → full_key cs x) →
  NoDup (filter P rs).
Proof.
  intros Hu HP. unfold keys_unique in Hu.
  apply NoDup_fmap_1 in Hu.
  induction rs as [|x rs IH]; [constructor|].
  rewrite filter_cons in Hu. rewrite filter_cons.
  assert (Hrs : ∀ y, y ∈ rs → P y → full_key cs y).
  { intros y Hy. apply HP. by right. }
  destruct (decide (P x)) as [HPx|HPx].
  - rewrite decide_True in Hu by (apply HP; [by left | done]).
    apply NoDup_cons in Hu as [Hnotin Hu].
    apply NoDup_cons. split; [|by apply IH].
    intros Hin. apply list_elem_of_filter in Hin as [_ Hin].
    apply Hnotin. apply list_elem_of_filter. split; [|done].
    apply HP; [by left | done].
  - apply IH; [|done]. destruct (decide (full_key cs x)); [|done].
    by apply NoDup_cons in Hu as [_ ?].
Qed.

(** ** Stored rows *)

Lemma col_store_row (t : table) cols (vals : tuple) (i : nat) c v :
  NoDup cols → List.length cols = List.length vals →
  cols !! i = Some c → vals !! i = Some v →
  col (store_row t cols vals) c = apply_affinity (col_type t c) v.
Proof.
  intros Hnd Hlen Hc Hv. unfold col, store_row.
  erewrite elem_of_list_to_map_1; [reflexivity| |].
  - rewrite <- list_fmap_compose.
    replace (_ <$> zip cols vals) with cols; [done|].
    rewrite <- (fst_zip cols vals) at 1 by lia.
    apply list_fmap_ext. by intros ? [? ?] ?.
  - apply list_elem_of_lookup_2 with i.
    rewrite list_lookup_fmap, lookup_zip_with, Hc, Hv. done.
Qed.

Lemma create_table_fresh ine name cols pk fks (d : db) :
  d !! name = None →
  create_table ine name cols pk fks d = Ok (<[name := Table cols pk fks []]> d).
Proof. unfold create_table. by intros ->. Qed.

Lemma bind_Ok {A B : Type} (a : A) (f : A → result B) : Ok a ≫= f = f a.
Proof. reflexivity. Qed.

Lemma table_rows_insert name (t : table) (d : db) :
  table_rows name (<[name := t]> d) = tbl_rows t.
Proof. unfold table_rows. by rewrite lookup_insert_eq. Qed.

(** ** Day games *)




(** ** The derived game id *)

Lemma col_delete_ne (r : row) (k c : string) :
  c ≠ k → col (delete k r) c = col r c.
Proof. intros Hne. unfold col. by rewrite lookup_delete_ne. Qed.

Lemma col_insert_eq (r : row) (k : string) (v : value) :
  col (<[k := v]> r) k = v.
Proof. unfold col. by rewrite lookup_insert_eq. Qed.

Lemma col_type_snoc (t : table) cols c ty :
  tbl_cols t = cols ++ [(c, ty)] → c ∉ cols.*1 → col_type t c = ty.
Proof.
  unfold col_type. intros -> Hc.
  induction cols as [|[c' ty'] cols IH]; simpl.
  - by rewrite decide_True.
  - rewrite fmap_cons, not_elem_of_cons in Hc. destruct Hc as [Hne Hc].
    rewrite decide_False by (simpl in *; by intros ->).
    specialize (IH Hc).
    destruct (list_find _ (cols ++ _)) as [[? [? ?]]|]; simpl in *; done.
Qed.

Lemma concat_affinity (a b : value) :
  apply_affinity TEXT (sql_concat a b) = sql_concat a b.
Proof. unfold sql_concat. by repeat case_match. Qed.


Lemma add_game_id_fresh (d : db) (t : table) :
  d !! "game_log" = Some t → "game_id" ∉ (tbl_cols t).*1 →
  GameLog.add_game_id d =
  Ok (<["game_log" :=
        Table (tbl_cols t ++ [("game_id", TEXT)]) (tbl_pk t) (tbl_fks t)
          ((λ r, <["game_id" := GameLog.game_id_of r]> r) <$> tbl_rows t)]> d).
Proof.
  intros Ht Hc.
  unfold GameLog.add_game_id, try_except_pass, run_command, GameLog.c1,
    alter_add_column, get_table.
  rewrite Ht. simpl. rewrite bool_decide_eq_false_2 by done.
  rewrite bind_Ok. unfold GameLog.c2.
  erewrite update_set_Ok; [|apply lookup_insert_eq|].
  - rewrite insert_insert_eq. do 2 f_equal. unfold with_rows; simpl.
    f_equal. rewrite <- list_fmap_compose. apply list_fmap_ext.
    intros i r _. simpl.
    rewrite (col_type_snoc _ (tbl_cols t) "game_id" TEXT) by done.
    unfold col at 1. rewrite lookup_delete_eq. simpl.
    rewrite insert_delete_eq. f_equal.
    unfold GameLog.game_id_of.
    rewrite !col_delete_ne by done. apply concat_affinity.
  - simpl. rewrite fmap_app, elem_of_app. right. by left.
Qed.


(** ** Two team appearances per game *)

Lemma columns_NoDup : NoDup TeamAppearance.columns.*1.
Proof. apply (bool_decide_unpack _). vm_compute. exact I. Qed.

Lemma stored_home (r : row) :
  let x := store_row TeamAppearance.created TeamAppearance.columns.*1
                     (TeamAppearance.select_h r) in
  col x "team_id" = apply_affinity TEXT (col r "h_name") ∧
  col x "game_id" = apply_affinity TEXT (col r "game_id") ∧
  col x "home" = VInt 1 ∧
  col x "league_id" = apply_affinity TEXT (col r "h_league").
Proof.
  pose proof columns_NoDup as Hnd. simpl. split; [|split; [|split]].
  - by rewrite (col_store_row _ _ _ 0 "team_id" (col r "h_name")).
  - by rewrite (col_store_row _ _ _ 1 "game_id" (col r "game_id")).
  - by rewrite (col_store_row _ _ _ 2 "home" (VInt 1)).
  - by rewrite (col_store_row _ _ _ 3 "league_id" (col r "h_league")).
Qed.

Lemma stored_visitor (r : row) :
  let x := store_row TeamAppearance.created TeamAppearance.columns.*1
                     (TeamAppearance.select_v r) in
  col x "team_id" = apply_affinity TEXT (col r "v_name") ∧
  col x "game_id" = apply_affinity TEXT (col r "game_id") ∧
  col x "home" = VInt 0 ∧
  col x "league_id" = apply_affinity TEXT (col r "v_league").
Proof.
  pose proof columns_NoDup as Hnd. simpl. split; [|split; [|split]].
  - by rewrite (col_store_row _ _ _ 0 "team_id" (col r "v_name")).
  - by rewrite (col_store_row _ _ _ 1 "game_id" (col r "game_id")).
  - by rewrite (col_store_row _ _ _ 2 "home" (VInt 0)).
  - by rewrite (col_store_row _ _ _ 3 "league_id" (col r "v_league")).
Qed.

(** C7 (as amended).  In a store without a team_appearance table, create
    it and fill it from game_log.  For a game that one game_log row
    describes (no other row has its game_id), with a home team and a
    visiting team that differ, the table then holds exactly two rows with
    that game_id: one with home = 1 for h_name and one with home = 0 for
    v_name, each with the league the game_log row gives for that side
    (NULL when it gives none). *)
Theorem team_appearance_pair (d d2 : db) (log : table) (i : nat) (r : row)
    (g a b : string) :
  d !! "game_log" = Some log →
  d !! "team_appearance" = None →
  tbl_rows log !! i = Some r →
  col r "game_id" = VText g →
  col r "h_name" = VText a → col r "v_name" = VText b → a ≠ b →
  (∀ j r', tbl_rows log !! j = Some r' → j ≠ i →
           apply_affinity TEXT (col r' "game_id") ≠ VText g) →
  run_command TeamAppearance.c1 d ≫= run_command TeamAppearance.c2 = Ok d2 →
  ∃ x y,
    filter (λ z, col z "game_id" = VText g)
           (table_rows "team_appearance" d2) ≡ₚ [x; y] ∧
    col x "team_id" = VText a ∧ col x "home" = VInt 1 ∧
    col x "league_id" = apply_affinity TEXT (col r "h_league") ∧
    col y "team_id" = VText b ∧ col y "home" = VInt 0 ∧
    col y "league_id" = apply_affinity TEXT (col r "v_league").
Proof.
  intros Hlog Hfresh Hi Hg Ha Hb Hab Hothers Hrun.
  rewrite (create_table_fresh true "team_appearance" _ _ _ d Hfresh
             : run_command TeamAppearance.c1 d
               = Ok (<["team_appearance" := TeamAppearance.created]> d)),
          bind_Ok in Hrun.
  unfold run_command, TeamAppearance.c2 in Hrun.
  apply insert_select_Ok in Hrun
    as (src & t' & rs' & bad & Hsrc & Ht' & Hins & ->).
  rewrite lookup_insert_eq in Ht'. injection Ht' as <-.
  rewrite lookup_insert_ne, Hlog in Hsrc by done. injection Hsrc as <-.
  change (default (tbl_cols TeamAppearance.created).*1 None)
    with (TeamAppearance.columns.*1) in Hins.
  change (tbl_rows TeamAppearance.created) with (@nil row) in Hins.
  apply (insert_tuples_key _ _ _ ["team_id"; "game_id"]) in Hins
    as ((new & -> & Hnew) & Hrep & Huniq); [|done].
  rewrite table_rows_insert. cbn [tbl_rows with_rows app] in *.
  set (store := store_row TeamAppearance.created TeamAppearance.columns.*1)
    in *.
  set (P := λ z : row, col z "game_id" = VText g).
  set (sh := store (TeamAppearance.select_h r)).
  set (sv := store (TeamAppearance.select_v r)).
  destruct (stored_home r) as (Hh1 & Hh2 & Hh3 & Hh4).
  destruct (stored_visitor r) as (Hv1 & Hv2 & Hv3 & Hv4).
  fold store sh in Hh1, Hh2, Hh3, Hh4. fold store sv in Hv1, Hv2, Hv3, Hv4.
  rewrite Ha in Hh1. rewrite Hb in Hv1. rewrite Hg in Hh2, Hv2.
  cbn [apply_affinity] in Hh1, Hv1, Hh2, Hv2.
  assert (Hne : sh ≠ sv).
  { intros Heq. rewrite Heq, Hv1 in Hh1. by injection Hh1 as ->. }
  assert (Hsel : ∀ v, v ∈ TeamAppearance.select (tbl_rows log) →
            P (store v) →
            v = TeamAppearance.select_h r ∨ v = TeamAppearance.select_v r).
  { intros v Hv HP. unfold P in HP.
    apply elem_of_sql_union in Hv as [Hv|Hv];
      apply list_elem_of_fmap in Hv as (r' & -> & Hr');
      apply list_elem_of_lookup in Hr' as [j Hj];
      [destruct (stored_home r') as (_ & Hgid & _)
      |destruct (stored_visitor r') as (_ & Hgid & _)];
      fold store in Hgid; rewrite Hgid in HP;
      (destruct (decide (j = i)) as [->|Hji];
       [rewrite Hi in Hj; injection Hj as <-; tauto
       |by destruct (Hothers j r' Hj Hji)]). }
  assert (Hrows : ∀ x, x ∈ new → P x → x = sh ∨ x = sv).
  { intros x Hx HP. rewrite Forall_forall in Hnew.
    destruct (Hnew x Hx) as (v & Hv & ->).
    destruct (Hsel v Hv HP) as [-> | ->]; tauto. }
  assert (Hfull : ∀ x, x ∈ new → P x →
            full_key ["team_id"; "game_id"] x).
  { intros x Hx HP. unfold full_key.
    destruct (Hrows x Hx HP) as [-> | ->].
    - repeat constructor; [by rewrite Hh1 | by rewrite Hh2].
    - repeat constructor; [by rewrite Hv1 | by rewrite Hv2]. }
  assert (Hin : ∀ v s team,
            v ∈ TeamAppearance.select (tbl_rows log) → s = store v →
            (s = sh ∨ s = sv) →
            col s "team_id" = VText team → col s "game_id" = VText g →
            (∀ s', (s' = sh ∨ s' = sv) → col s' "team_id" = VText team →
                   s' = s) →
            s ∈ new).
  { intros v s team Hv -> Hs Hteam Hgame Hsame.
    destruct (Hrep v Hv) as [Hok|[_ Hk]]; [done|].
    apply list_elem_of_fmap in Hk as (x & Hk & Hx).
    apply list_elem_of_filter in Hx as [_ Hx].
    unfold key_of in Hk. cbn [fmap list_fmap] in Hk.
    injection Hk as Hk1 Hk2.
    rewrite Hteam in Hk1. rewrite Hgame in Hk2.
    rewrite <- (Hsame x); [done| |by symmetry].
    apply Hrows; [done | by symmetry]. }
  assert (Hsh : sh ∈ new).
  { apply (Hin (TeamAppearance.select_h r) sh a); try tauto.
    - apply elem_of_sql_union. left. apply list_elem_of_fmap. exists r.
      split; [done | by eapply list_elem_of_lookup_2].
    - intros s' [->| ->] Hs'; [done|].
      rewrite Hv1 in Hs'. by injection Hs' as ->. }
  assert (Hsv : sv ∈ new).
  { apply (Hin (TeamAppearance.select_v r) sv b); try tauto.
    - apply elem_of_sql_union. right. apply list_elem_of_fmap. exists r.
      split; [done | by eapply list_elem_of_lookup_2].
    - intros s' [->| ->] Hs'; [|done].
      rewrite Hh1 in Hs'. by injection Hs' as ->. }
  exists sh, sv. split; [|tauto].
  apply NoDup_Permutation.
  - apply (NoDup_filter_keys ["team_id"; "game_id"]); [|done].
    apply Huniq. constructor.
  - apply NoDup_cons. split; [|apply NoDup_singleton].
    by rewrite list_elem_of_singleton.
  - intros x. rewrite list_elem_of_filter, !elem_of_cons, elem_of_nil.
    split.
    + intros [HP Hx]. destruct (Hrows x Hx HP); tauto.
    + intros [->|[->|[]]]; tauto.
Qed.

Lemma team_appearance_pair_witness :
  ∃ x y,
    filter (λ z, col z "game_id" = VText "18710504FW10")
           (table_rows "team_appearance" Sample.with_team_appearance)
      ≡ₚ [x; y] ∧
    col x "team_id" = VText "FW1" ∧ col x "home" = VInt 1 ∧
    col x "league_id"
      = apply_affinity TEXT (col (Sample.logged Sample.with_game) "h_league") ∧
    col y "team_id" = VText "CL1" ∧ col y "home" = VInt 0 ∧
    col y "league_id"
      = apply_affinity TEXT (col (Sample.logged Sample.with_game) "v_league").
Proof.
  apply (team_appearance_pair Sample.with_game Sample.with_team_appearance
           (Sample.table_of "game_log" Sample.with_game) 0).
  - by_deciding.
  - by_deciding.
  - by_deciding.
  - by_deciding.
  - by_deciding.
  - by_deciding.
  - discriminate.
  - intros j r' Hj Hne. apply lookup_lt_Some in Hj.
    assert (Hlen : List.length
              (tbl_rows (Sample.table_of "game_log" Sample.with_game))
            = 1%nat) by by_deciding.
    lia.
  - by_deciding.
Defined.

(** C7, as first stated, fails.  A game whose home side has no league in
    game_log gets a home row whose league_id is NULL and matches no
    league row; a game_log row naming the same team on both sides leaves
    a single team_appearance row for its game. *)
Lemma team_appearance_league_or_pair_missing :
  after (migrate (Sample.data [Sample.no_home_league]) ∅) (λ d,
    Exists (λ x, col x "game_id" = VText "18710504FW10" ∧
                 col x "home" = VInt 1 ∧ col x "league_id" = VNull ∧
                 ¬ Exists (λ l, col l "league_id" = col x "league_id")
                          (table_rows "league" d))
           (table_rows "team_appearance" d)) ∧
  after (migrate (Sample.data [Sample.same_team]) ∅) (λ d,
    Exists (λ x, col x "game_id" = VText "18710504FW10")
           (table_rows "game" d) ∧
    List.length (filter (λ x, col x "game_id" = VText "18710504FW10")
                        (table_rows "team_appearance" d)) = 1%nat).
Proof. split; by_running. Qed.


(** The scenario of C5 on the sample data: the game of 18710504 at FW1,
    game number 0, is found once in the game table under 18710504FW10. *)
Example opening_game_found_once :
  after (migrate (Sample.data [Sample.game1]) ∅) (λ d,
    List.length (filter (λ x, col x "game_id" = VText "18710504FW10")
                        (table_rows "game" d)) = 1%nat).
Proof. by_running. Qed.


(** ** Duplicate appearances *)



(** ** Loading the frames *)

Ltac split_conj := repeat match goal with |- _ ∧ _ => split end.

Lemma insert_tuples_nokey oc (d : db) name (t : table) cols :
  tbl_pk t = NoKey →
  ∀ ts rs bad, ∃ bad',
    insert_tuples oc d name t cols rs bad ts
    = Ok (rs ++ (store_row t cols <$> ts), bad').
Proof.
  intros Hpk ts. induction ts as [|v ts IH]; intros rs bad.
  - exists bad. simpl. by rewrite app_nil_r.
  - simpl. unfold key_conflict, assign_rowid. rewrite Hpk.
    destruct (IH (rs ++ [store_row t cols v])
                 (bad || negb (fk_ok d t (store_row t cols v)))) as [bad' ->].
    exists bad'. by rewrite <- app_assoc.
Qed.

Lemma drop_table_unchecked name (d : db) :
  drop_table false true name d = Ok (delete name d).
Proof.
  unfold drop_table. destruct (d !! name) eqn:E; simpl; [done|].
  by rewrite delete_id.
Qed.

Lemma to_sql_fresh name (data : frame) (d : db) :
  d !! name = None →
  to_sql false name data d = Ok (<[name := frame_table data]> d).
Proof.
  intros Hnone. unfold to_sql. rewrite Hnone.
  rewrite create_table_fresh by done. rewrite bind_Ok.
  unfold insert_into, get_table. rewrite lookup_insert_eq. simpl.
  destruct (insert_tuples_nokey ABORT
              (<[name := Table (fr_cols data) NoKey [] []]> d) name
              (Table (fr_cols data) NoKey [] []) (fr_cols data).*1 eq_refl
              ((λ r, col r <$> (fr_cols data).*1) <$> fr_rows data) [] false)
    as [bad' ->].
  simpl. rewrite insert_insert_eq. unfold frame_table, with_rows. simpl.
  by rewrite <- list_fmap_compose.
Qed.

Lemma for_each_cons {A : Type} (x : A) (l : list A) body (d : db) :
  for_each (x :: l) body d = body x d ≫= for_each l body.
Proof. reflexivity. Qed.

Lemma load_one name (data : frame) (d : db) :
  (d ← drop_table false true name d; to_sql false name data d)
  = Ok (<[name := frame_table data]> d).
Proof.
  rewrite drop_table_unchecked, bind_Ok.
  rewrite to_sql_fresh by apply lookup_delete_eq.
  by rewrite insert_delete_eq.
Qed.

Lemma load_tables (log person team park : frame) (d : db) :
  GameLog.load (GameLog.tables log person team park) d
  = Ok (<["park_codes" := frame_table park]>
         (<["team_codes" := frame_table team]>
           (<["person_codes" := frame_table person]>
             (<["game_log" := frame_table log]> d)))).
Proof.
  unfold GameLog.load, GameLog.tables.
  repeat (rewrite for_each_cons; cbn [fst snd]; rewrite load_one, bind_Ok).
  reflexivity.
Qed.

(** X1.  Loading never fails, whatever the store holds: each of the four raw
    tables is replaced by the table of its frame and no other table is
    touched. *)
Theorem load_replaces_raw_tables (log person team park : frame) (d : db) :
  ∃ d',
    GameLog.load (GameLog.tables log person team park) d = Ok d' ∧
    d' !! "game_log" = Some (frame_table log) ∧
    d' !! "person_codes" = Some (frame_table person) ∧
    d' !! "team_codes" = Some (frame_table team) ∧
    d' !! "park_codes" = Some (frame_table park) ∧
    ∀ name, name ∉ ["game_log"; "person_codes"; "team_codes"; "park_codes"] →
            d' !! name = d !! name.
Proof.
  eexists. split; [apply load_tables|]. split_conj.
  - by rewrite !lookup_insert_ne, lookup_insert_eq by done.
  - by rewrite !lookup_insert_ne, lookup_insert_eq by done.
  - by rewrite !lookup_insert_ne, lookup_insert_eq by done.
  - by rewrite lookup_insert_eq.
  - intros name Hname. rewrite !not_elem_of_cons in Hname.
    destruct Hname as (? & ? & ? & ? & _).
    by rewrite !lookup_insert_ne by done.
Qed.

Lemma col_type_elem (t : table) c ty :
  NoDup (tbl_cols t).*1 → (c, ty) ∈ tbl_cols t → col_type t c = ty.
Proof.
  unfold col_type. generalize (tbl_cols t). intros cols.
  induction cols as [|[c' ty'] cols IH]; intros Hnd Hin.
  - by apply elem_of_nil in Hin.
  - rewrite fmap_cons in Hnd. apply NoDup_cons in Hnd as [Hnotin Hnd].
    apply elem_of_cons in Hin as [[= <- <-]|Hin]; simpl.
    + by rewrite decide_True.
    + rewrite decide_False.
      * specialize (IH Hnd Hin).
        destruct (list_find _ cols) as [[? [? ?]]|]; simpl in *; done.
      * simpl. intros ->. apply Hnotin.
        apply list_elem_of_fmap. by exists (c, ty).
Qed.

(** A stored frame row reads, in each column of the frame, the frame's
    value under the column's affinity. *)
Lemma frame_table_col (data : frame) (i : nat) (r : row) c ty :
  NoDup (fr_cols data).*1 →
  fr_rows data !! i = Some r → (c, ty) ∈ fr_cols data →
  ∃ x, tbl_rows (frame_table data) !! i = Some x ∧
       col x c = apply_affinity ty (col r c).
Proof.
  intros Hnd Hi Hc. eexists. split.
  - unfold frame_table. simpl. rewrite list_lookup_fmap, Hi. reflexivity.
  - pose proof Hc as Hc'. apply list_elem_of_lookup in Hc' as [j Hj].
    rewrite (col_store_row _ _ _ j c (col r c)).
    + f_equal. by apply (col_type_elem (Table (fr_cols data) NoKey [] [])).
    + done.
    + by rewrite !length_fmap.
    + by rewrite list_lookup_fmap, Hj.
    + by rewrite !list_lookup_fmap, Hj.
Qed.

(** X2.  What is loaded is what is read: after the load, row [i] of game_log
    reads, in each column of the frame, the value of the frame's row [i]
    under the affinity of the column's type, and game_log has as many rows
    as the frame. *)
Theorem loaded_game_log_cells (log person team park : frame) (d : db)
    (i : nat) (r : row) c ty :
  NoDup (fr_cols log).*1 →
  fr_rows log !! i = Some r → (c, ty) ∈ fr_cols log →
  after (GameLog.load (GameLog.tables log person team park) d) (λ d',
    List.length (table_rows "game_log" d') = List.length (fr_rows log) ∧
    ∃ x, table_rows "game_log" d' !! i = Some x ∧
         col x c = apply_affinity ty (col r c)).
Proof.
  intros Hnd Hi Hc. rewrite load_tables. unfold after, table_rows.
  rewrite !lookup_insert_ne, lookup_insert_eq by done. split.
  - unfold frame_table. cbn [tbl_rows]. by rewrite length_fmap.
  - by apply frame_table_col.
Qed.

(** ** Deriving game_id, again *)

Lemma game_id_of_insert (r : row) (v : value) :
  GameLog.game_id_of (<["game_id" := v]> r) = GameLog.game_id_of r.
Proof.
  unfold GameLog.game_id_of, col. by rewrite !lookup_insert_ne.
Qed.

Lemma affinity_null ty (v : value) :
  apply_affinity ty v = VNull → v = VNull.
Proof. destruct ty, v; simpl; try done; by case_match. Qed.

(** The rows the UPDATE leaves are settled: one more UPDATE maps each of
    them to itself. *)
Lemma update_row_settled ty (r : row) :
  let f := λ r : row,
    if is_null (col r "game_id")
    then <["game_id" := apply_affinity ty (GameLog.game_id_of r)]> r else r in
  f (f r) = f r.
Proof.
  simpl. destruct (is_null (col r "game_id")) eqn:Hn.
  - rewrite col_insert_eq, game_id_of_insert.
    destruct (is_null (apply_affinity ty (GameLog.game_id_of r))); [|done].
    by rewrite insert_insert_eq.
  - by rewrite Hn.
Qed.

Lemma add_game_id_present (d : db) (t : table) :
  d !! "game_log" = Some t → "game_id" ∈ (tbl_cols t).*1 →
  GameLog.add_game_id d =
  Ok (<["game_log" := with_rows t
        ((λ r : row,
            if is_null (col r "game_id")
            then <["game_id" := apply_affinity (col_type t "game_id")
                                  (GameLog.game_id_of r)]> r
            else r) <$> tbl_rows t)]> d).
Proof.
  intros Ht Hc.
  unfold GameLog.add_game_id, try_except_pass, run_command, GameLog.c1,
    alter_add_column, get_table.
  rewrite Ht. simpl. rewrite bool_decide_eq_true_2 by done.
  rewrite bind_Ok. unfold GameLog.c2. by apply update_set_Ok.
Qed.

(** X3.  Deriving the ids a second time changes nothing: the ALTER TABLE
    fails on the column that is now there, the handler discards that, and
    the UPDATE finds every row settled. *)
Theorem add_game_id_idempotent (d d1 : db) :
  GameLog.add_game_id d = Ok d1 → GameLog.add_game_id d1 = Ok d1.
Proof.
  intros Hrun.
  destruct (d !! "game_log") as [t|] eqn:Ht.
  - destruct (decide ("game_id" ∈ (tbl_cols t).*1)) as [Hc|Hc].
    + rewrite (add_game_id_present d t) in Hrun by done.
      injection Hrun as <-.
      erewrite add_game_id_present; [|apply lookup_insert_eq|done].
      rewrite insert_insert_eq. do 2 f_equal.
      unfold with_rows; simpl. f_equal.
      rewrite <- list_fmap_compose. apply list_fmap_ext.
      intros i r _. apply (update_row_settled (col_type t "game_id") r).
    + rewrite (add_game_id_fresh d t) in Hrun by done.
      injection Hrun as <-.
      erewrite add_game_id_present; [|apply lookup_insert_eq|].
      * rewrite insert_insert_eq. do 2 f_equal.
        unfold with_rows; simpl. f_equal.
        rewrite <- list_fmap_compose. apply list_fmap_ext.
        intros i r _. simpl. rewrite col_insert_eq, game_id_of_insert.
        destruct (is_null (GameLog.game_id_of r)) eqn:Hn; [|done].
        rewrite insert_insert_eq. f_equal.
        rewrite (col_type_snoc _ (tbl_cols t) "game_id" TEXT) by done.
        apply concat_affinity.
      * simpl. rewrite fmap_app, elem_of_app. right. by left.
  - unfold GameLog.add_game_id, try_except_pass, run_command, GameLog.c1,
      GameLog.c2, alter_add_column, update_set, get_table in Hrun.
    rewrite Ht in Hrun. simpl in Hrun. by rewrite Ht in Hrun.
Qed.


(** ** INSERT OR IGNORE, run again *)

Lemma insert_tuples_all_conflict (d : db) name (t : table) cs cols rs bad ts :
  tbl_pk t = Key cs →
  (∀ v, v ∈ ts → key_conflict t rs (store_row t cols v) = true) →
  insert_tuples IGNORE d name t cols rs bad ts = Ok (rs, bad).
Proof.
  intros Hpk. induction ts as [|v ts IH]; intros Hall; [done|].
  simpl. rewrite (assign_rowid_key t cs) by done.
  rewrite Hall by (by left). apply IH. intros w Hw. apply Hall. by right.
Qed.

Lemma missing_parent_insert name (x t : table) (d : db) :
  missing_parent d t = None →
  missing_parent (<[name := x]> d) t = None.
Proof.
  unfold missing_parent. intros H.
  destruct (list_find _ (tbl_fks t)) as [p|] eqn:E in H; [done|].
  apply list_find_None in E.
  destruct (list_find _ (tbl_fks t)) as [[i fk]|] eqn:E'; [|done].
  apply list_find_Some in E' as (Hi & Hfk & _).
  apply list_elem_of_lookup_2 in Hi.
  rewrite Forall_forall in E. specialize (E fk Hi).
  destruct (decide (name = fk_table fk)) as [->|Hne].
  - by rewrite lookup_insert_eq in Hfk.
  - by rewrite lookup_insert_ne in Hfk.
Qed.


Lemma insert_into_Ok oc fk name cols ts (d d' : db) :
  insert_into oc fk name cols ts d = Ok d' →
  ∃ t rs' bad,
    d !! name = Some t ∧
    (if fk then missing_parent d t else None) = None ∧
    insert_tuples oc d name t (default (tbl_cols t).*1 cols) (tbl_rows t)
                  false ts = Ok (rs', bad) ∧
    (fk && bad = false) ∧
    d' = <[name := with_rows t rs']> d.
Proof.
  unfold insert_into, get_table.
  destruct (d !! name) as [t|] eqn:Ht; simpl; [|done].
  destruct (if fk then missing_parent d t else None) eqn:Hmp; [done|].
  destruct (insert_tuples _ _ _ _ _ _ _ _) as [[rs' bad]|] eqn:Hins;
    simpl; [|done].
  destruct (fk && bad) eqn:Hbad; [done|].
  intros [= <-]. by exists t, rs', bad.
Qed.

Lemma insert_into_again fk name cols ts (d d1 : db) (t : table) cs :
  d !! name = Some t → tbl_pk t = Key cs →
  (∀ v, v ∈ ts →
        full_key cs (store_row t (default (tbl_cols t).*1 cols) v)) →
  insert_into IGNORE fk name cols ts d = Ok d1 →
  insert_into IGNORE fk name cols ts d1 = Ok d1.
Proof.
  intros Ht Hpk Hfull Hrun.
  apply insert_into_Ok in Hrun as (t' & rs' & bad & Ht' & Hmp & Hins & _ & ->).
  rewrite Ht in Ht'. injection Ht' as <-.
  apply (insert_tuples_key _ _ _ cs) in Hins as (_ & Hrep & _); [|done].
  unfold insert_into, get_table. rewrite lookup_insert_eq. simpl.
  replace (if fk then missing_parent _ (with_rows t rs') else None)
    with (@None string).
  2:{ destruct fk; [|done]. symmetry.
      by apply (missing_parent_insert name _ (with_rows t rs')). }
  rewrite (insert_tuples_all_conflict _ _ _ cs); [|done|].
  - simpl. by rewrite andb_false_r, insert_insert_eq.
  - intros v Hv. apply (key_conflict_spec _ cs); [done|].
    specialize (Hfull v Hv). split; [done|].
    destruct (Hrep v Hv) as [Hin|[_ Hin]]; [|done].
    apply list_elem_of_fmap. eexists. split; [reflexivity|].
    by apply list_elem_of_filter.
Qed.

(** A cell of the notebook that creates a keyed table if it is not there
    and fills it with INSERT OR IGNORE ... SELECT: run on a store without
    the table, then run again on the store it left, it changes nothing
    the second time, provided no selected tuple has a NULL in the key. *)
Lemma cell_again name columns cs fks source select (d d1 : db) (src : table) :
  d !! name = None → d !! source = Some src → name ≠ source →
  (∀ v, v ∈ select (tbl_rows src) →
        full_key cs (store_row (Table columns (Key cs) fks []) columns.*1 v)) →
  create_table true name columns (Key cs) fks d
    ≫= insert_select IGNORE name None source select true = Ok d1 →
  create_table true name columns (Key cs) fks d1
    ≫= insert_select IGNORE name None source select true = Ok d1.
Proof.
  intros Hfresh Hsrc Hne Hfull Hrun.
  rewrite create_table_fresh, bind_Ok in Hrun by done.
  assert (Hthere : is_Some (d1 !! name)).
  { apply insert_select_Ok in Hrun as (? & ? & ? & ? & _ & _ & _ & ->).
    rewrite lookup_insert_eq. by eexists. }
  destruct Hthere as [t1 Ht1].
  unfold create_table at 1. rewrite Ht1, bind_Ok.
  unfold insert_select, rows_of, get_table in *.
  rewrite lookup_insert_ne, Hsrc in Hrun by done.
  simpl in Hrun.
  assert (Hsrc1 : d1 !! source = Some src).
  { apply insert_into_Ok in Hrun as (? & ? & ? & _ & _ & _ & _ & ->).
    by rewrite lookup_insert_ne, lookup_insert_ne by done. }
  rewrite Hsrc1. simpl.
  apply (insert_into_again true name None _
           (<[name := Table columns (Key cs) fks []]> d) d1
           (Table columns (Key cs) fks []) cs);
    [apply lookup_insert_eq|done|exact Hfull|exact Hrun].
Qed.

Lemma affinity_not_null ty (v : value) :
  v ≠ VNull → apply_affinity ty v ≠ VNull.
Proof. intros Hv Ha. by apply affinity_null in Ha. Qed.

(** ** Reference tables, run again *)

(** X5.  Creating and filling person on a store without it, then running the
    same two statements again, changes nothing the second time, when no
    person_codes row has a NULL id. *)
Theorem person_cell_idempotent (d d1 : db) (src : table) :
  d !! "person" = None → d !! "person_codes" = Some src →
  (∀ r, r ∈ tbl_rows src → col r "id" ≠ VNull) →
  run_command Person.c1 d ≫= run_command Person.c2 = Ok d1 →
  run_command Person.c1 d1 ≫= run_command Person.c2 = Ok d1.
Proof.
  intros Hfresh Hsrc Hid.
  apply (cell_again "person" _ ["person_id"] [] "person_codes" _ d d1 src);
    try done.
  intros v Hv. apply list_elem_of_fmap in Hv as (r & -> & Hr).
  constructor; [|constructor].
  rewrite (col_store_row _ _ _ 0 "person_id" (col r "id")); try done.
  - by apply affinity_not_null, Hid.
  - by_deciding.
Qed.

(** X6.  Creating and filling park on a store without it, then running the
    same two statements again, changes nothing the second time, when no
    park_codes row has a NULL park_id. *)
Theorem park_cell_idempotent (d d1 : db) (src : table) :
  d !! "park" = None → d !! "park_codes" = Some src →
  (∀ r, r ∈ tbl_rows src → col r "park_id" ≠ VNull) →
  run_command Park.c1 d ≫= run_command Park.c2 = Ok d1 →
  run_command Park.c1 d1 ≫= run_command Park.c2 = Ok d1.
Proof.
  intros Hfresh Hsrc Hid.
  apply (cell_again "park" _ ["park_id"] [] "park_codes" _ d d1 src);
    try done.
  intros v Hv. apply list_elem_of_fmap in Hv as (r & -> & Hr).
  constructor; [|constructor].
  rewrite (col_store_row _ _ _ 0 "park_id" (col r "park_id")); try done.
  - by apply affinity_not_null, Hid.
  - by_deciding.
Qed.

(** X7.  Creating and filling team, whose league_id is a foreign key, on a
    store without it, then running the same two statements again, changes
    nothing the second time, when no team_codes row has a NULL team_id. *)
Theorem team_cell_idempotent (d d1 : db) (src : table) :
  d !! "team" = None → d !! "team_codes" = Some src →
  (∀ r, r ∈ tbl_rows src → col r "team_id" ≠ VNull) →
  run_command Team.c1 d ≫= run_command Team.c2 = Ok d1 →
  run_command Team.c1 d1 ≫= run_command Team.c2 = Ok d1.
Proof.
  intros Hfresh Hsrc Hid.
  apply (cell_again "team" _ ["team_id"]
           [FKey "league_id" "league" "league_id"] "team_codes" _ d d1 src);
    try done.
  intros v Hv. apply list_elem_of_fmap in Hv as (r & -> & Hr).
  constructor; [|constructor].
  rewrite (col_store_row _ _ _ 0 "team_id" (col r "team_id")); try done.
  - by apply affinity_not_null, Hid.
  - by_deciding.
Qed.

(** X8.  Creating and filling league always goes through on a store without
    it, leaves the six leagues in the order of the statement, and changes
    nothing when run again. *)
Theorem league_cell (d : db) :
  d !! "league" = None →
  ∃ d1,
    run_command League.c1 d ≫= run_command League.c2 = Ok d1 ∧
    (λ x, [col x "league_id"; col x "name"]) <$> table_rows "league" d1
      = [ [VText "NL"; VText "National League"];
          [VText "AL"; VText "American League"];
          [VText "AA"; VText "American Association"];
          [VText "FL"; VText "Federal League"];
          [VText "PL"; VText "Players League"];
          [VText "UA"; VText "Union Association"] ] ∧
    (∀ name, name ≠ "league" → d1 !! name = d !! name) ∧
    run_command League.c1 d1 ≫= run_command League.c2 = Ok d1.
Proof.
  intros Hfresh.
  assert (Hrun : ∃ rs,
    run_command League.c1 d ≫= run_command League.c2
    = Ok (<["league" := with_rows league_created rs]> d) ∧
    (λ x, [col x "league_id"; col x "name"]) <$> rs
      = [ [VText "NL"; VText "National League"];
          [VText "AL"; VText "American League"];
          [VText "AA"; VText "American Association"];
          [VText "FL"; VText "Federal League"];
          [VText "PL"; VText "Players League"];
          [VText "UA"; VText "Union Association"] ]).
  { rewrite (create_table_fresh true "league" _ _ _ d Hfresh
               : run_command League.c1 d
                 = Ok (<["league" := league_created]> d)), bind_Ok.
    unfold run_command, League.c2, insert_into, get_table.
    rewrite lookup_insert_eq, bind_Ok.
    change (if true then missing_parent _ league_created else None)
      with (@None string). cbv iota.
    set (ts := [ [VText "NL"; VText "National League"];
                 [VText "AL"; VText "American League"];
                 [VText "AA"; VText "American Association"];
                 [VText "FL"; VText "Federal League"];
                 [VText "PL"; VText "Players League"];
                 [VText "UA"; VText "Union Association"] ]).
    assert (Hins :
      insert_tuples IGNORE (<["league" := league_created]> d) "league"
        league_created (default (tbl_cols league_created).*1 None)
        (tbl_rows league_created) false ts
      = Ok (store_row league_created ["league_id"; "name"] <$> ts, false))
      by by_deciding.
    rewrite Hins, bind_Ok. cbn [andb].
    eexists. split.
    - rewrite insert_insert_eq. reflexivity.
    - by_deciding. }
  destruct Hrun as (rs & Hrun & Hrows).
  eexists. split; [exact Hrun|]. split; [|split].
  - by rewrite table_rows_insert.
  - intros name Hne. by rewrite lookup_insert_ne.
  - rewrite (create_table_fresh true "league" _ _ _ d Hfresh
               : run_command League.c1 d
                 = Ok (<["league" := league_created]> d)), bind_Ok in Hrun.
    assert (Hc1 : run_command League.c1
                    (<["league" := with_rows league_created rs]> d)
                  = Ok (<["league" := with_rows league_created rs]> d)).
    { unfold run_command, League.c1, create_table.
      by rewrite lookup_insert_eq. }
    rewrite Hc1, bind_Ok. unfold run_command, League.c2 in *.
    apply (insert_into_again true "league" None _
             (<["league" := league_created]> d) _ league_created
             ["league_id"]); [apply lookup_insert_eq|done| |done].
    intros v Hv. apply (bool_decide_unpack _).
    rewrite !elem_of_cons, elem_of_nil in Hv.
    repeat destruct Hv as [->|Hv]; try done; vm_compute; exact I.
Qed.

(** ** Rows whose key is NULL *)

Lemma insert_tuples_null_key (d : db) name (t : table) cs cols :
  tbl_pk t = Key cs →
  ∀ ts rs bad rs' bad',
    insert_tuples IGNORE d name t cols rs bad ts = Ok (rs', bad') →
    (List.length rs
     + List.length (filter (λ v, ¬ full_key cs (store_row t cols v)) ts)
     ≤ List.length rs')%nat.
Proof.
  intros Hpk ts. induction ts as [|v ts IH]; intros rs bad rs' bad' Hins.
  - injection Hins as <- <-. simpl. lia.
  - simpl in Hins. rewrite (assign_rowid_key t cs) in Hins by done.
    rewrite filter_cons.
    destruct (key_conflict t rs (store_row t cols v)) eqn:Hc.
    + apply (key_conflict_spec t cs) in Hc as [Hf _]; [|done].
      rewrite decide_False by tauto. by eapply IH.
    + apply IH in Hins. rewrite length_app in Hins. simpl in Hins.
      destruct (decide _); simpl; lia.
Qed.

(** X9.  A person_codes row without an id is stored again by every run of
    the INSERT OR IGNORE: the text primary key takes NULL and a NULL key
    collides with nothing, so the person table grows each time. *)
Theorem person_null_id_stored_again (d d1 : db) (src : table) (rs : list row)
    (r : row) :
  d !! "person" = Some (with_rows person_created rs) →
  d !! "person_codes" = Some src →
  r ∈ tbl_rows src → col r "id" = VNull →
  run_command Person.c2 d = Ok d1 →
  (List.length (table_rows "person" d) < List.length (table_rows "person" d1))%nat.
Proof.
  intros Ht Hsrc Hr Hid Hrun.
  unfold run_command, Person.c2 in Hrun.
  apply insert_select_Ok in Hrun
    as (src' & t' & rs' & bad & Hsrc' & Ht' & Hins & ->).
  rewrite Hsrc in Hsrc'. injection Hsrc' as <-.
  rewrite Ht in Ht'. injection Ht' as <-.
  apply (insert_tuples_null_key _ _ _ ["person_id"]) in Hins; [|done].
  rewrite table_rows_insert. unfold table_rows. rewrite Ht.
  cbn [tbl_rows with_rows] in *.
  apply list_elem_of_split in Hr as (l1 & l2 & Heq). rewrite Heq in Hins.
  rewrite fmap_app, fmap_cons, filter_app, filter_cons, decide_True in Hins.
  - rewrite length_app in Hins. simpl in Hins. lia.
  - intros Hfull. apply Forall_cons in Hfull as [Hfull _]. apply Hfull.
    rewrite (col_store_row _ _ _ 0 "person_id" (col r "id")); try done.
    + by rewrite Hid.
    + by_deciding.
Qed.

(** ** Foreign keys hold after a statement that went through *)

Lemma fk_ok_resolves (d : db) (t : table) (x : row) :
  fk_ok d t x = true ↔ Forall (λ fk, resolves d fk x) (tbl_fks t).
Proof.
  unfold fk_ok. rewrite forallb_forall, Forall_forall.
  setoid_rewrite <- list_elem_of_In.
  apply forall_proper; intros fk. apply forall_proper; intros Hfk.
  unfold resolves.
  destruct (col x (fk_col fk)) as [|z|s] eqn:Hv.
  - split; [by left | done].
  - destruct (d !! fk_table fk) as [p|] eqn:Hp.
    + unfold has_key. rewrite bool_decide_eq_true, Exists_exists. split.
      * intros (l & Hl & Heq). right. by exists p, l.
      * intros [?|(p' & l & [= <-] & Hl & Heq)]; [done|]. by exists l.
    + split; [done|]. by intros [?|(? & ? & ? & _)].
  - destruct (d !! fk_table fk) as [p|] eqn:Hp.
    + unfold has_key. rewrite bool_decide_eq_true, Exists_exists. split.
      * intros (l & Hl & Heq). right. by exists p, l.
      * intros [?|(p' & l & [= <-] & Hl & Heq)]; [done|]. by exists l.
    + split; [done|]. by intros [?|(? & ? & ? & _)].
Qed.

Lemma insert_tuples_fk oc (d : db) name (t : table) cols :
  ∀ ts rs bad rs',
    insert_tuples oc d name t cols rs bad ts = Ok (rs', false) →
    bad = false ∧
    ∃ new, rs' = rs ++ new ∧ Forall (λ x, fk_ok d t x = true) new.
Proof.
  intros ts. induction ts as [|v ts IH]; intros rs bad rs' Hins.
  - injection Hins as <- ->. split; [done|]. exists []. by rewrite app_nil_r.
  - simpl in Hins.
    destruct (key_conflict t rs _) eqn:Hc.
    + destruct oc; [done|]. apply IH in Hins as (-> & new & -> & Hnew).
      split; [done|]. by exists new.
    + apply IH in Hins as (Hbad & new & -> & Hnew).
      apply orb_false_iff in Hbad as [-> Hfk].
      apply negb_false_iff in Hfk.
      split; [done|]. eexists (_ :: new). split.
      * by rewrite <- app_assoc.
      * by constructor.
Qed.

Lemma resolves_insert name (y : table) (d : db) fk (x : row) :
  fk_table fk ≠ name →
  resolves (<[name := y]> d) fk x ↔ resolves d fk x.
Proof. intros Hne. unfold resolves. by rewrite lookup_insert_ne. Qed.

(** After an INSERT that went through on a connection enforcing foreign
    keys, every row it added satisfies every foreign key of its table. *)
Lemma insert_into_references oc name cols ts (d d' : db) (t : table) :
  d !! name = Some t →
  insert_into oc true name cols ts d = Ok d' →
  ∃ new, table_rows name d' = tbl_rows t ++ new ∧
         Forall (λ x, Forall (λ fk, resolves d fk x) (tbl_fks t)) new.
Proof.
  intros Ht Hrun.
  apply insert_into_Ok in Hrun as (t' & rs' & bad & Ht' & _ & Hins & Hbad & ->).
  rewrite Ht in Ht'. injection Ht' as <-. simpl in Hbad. subst bad.
  apply insert_tuples_fk in Hins as (_ & new & -> & Hnew).
  exists new. rewrite table_rows_insert. split; [done|].
  eapply Forall_impl; [exact Hnew|]. intros x. by rewrite fk_ok_resolves.
Qed.

(** ** What a reference table holds *)

Lemma found_once c (k : string) (rs : list row) :
  keys_unique [c] rs →
  (∃ x, x ∈ rs ∧ col x c = VText k) →
  List.length (filter (λ x, col x c = VText k) rs) = 1%nat.
Proof.
  intros Hu (x & Hx & Hk).
  assert (Hle : (List.length (filter (λ x, col x c = VText k) rs) ≤ 1)%nat).
  { apply (filter_key_unique [c] _ [VText k]); [done|].
    intros y Hy. split.
    - constructor; [by rewrite Hy | constructor].
    - unfold key_of. simpl. by rewrite Hy. }
  assert (Hin : x ∈ filter (λ x, col x c = VText k) rs)
    by by apply list_elem_of_filter.
  destruct (filter _ rs); [by apply elem_of_nil in Hin|]. simpl in *. lia.
Qed.

(** A cell that creates a table keyed on one column and fills it with
    INSERT OR IGNORE ... SELECT, on a store without the table: the table
    then holds stored tuples only, each key value that a tuple carries is
    found exactly once, the rows satisfy the foreign keys and no other
    table has changed. *)
Lemma single_key_cell name columns c fks source select (d d1 : db)
    (src : table) :
  d !! name = None → d !! source = Some src → name ≠ source →
  create_table true name columns (Key [c]) fks d
    ≫= insert_select IGNORE name None source select true = Ok d1 →
  let store := store_row (Table columns (Key [c]) fks []) columns.*1 in
  (∀ x, x ∈ table_rows name d1 →
        ∃ v, v ∈ select (tbl_rows src) ∧ x = store v) ∧
  (∀ v k, v ∈ select (tbl_rows src) → col (store v) c = VText k →
          List.length (filter (λ x, col x c = VText k) (table_rows name d1))
          = 1%nat) ∧
  (∀ x, x ∈ table_rows name d1 → Forall (λ fk, resolves d fk x) fks) ∧
  (∀ n, n ≠ name → d1 !! n = d !! n).
Proof.
  intros Hfresh Hsrc Hne Hrun store.
  rewrite create_table_fresh, bind_Ok in Hrun by done.
  unfold insert_select, rows_of, get_table in Hrun.
  rewrite (lookup_insert_ne _ name source), Hsrc in Hrun by done.
  rewrite !bind_Ok in Hrun. cbn [tbl_rows] in Hrun.
  pose proof Hrun as Hrun'.
  apply (insert_into_references _ _ _ _ _ _ (Table columns (Key [c]) fks []))
    in Hrun' as (new' & Hrows & Hfk); [|apply lookup_insert_eq].
  apply insert_into_Ok in Hrun as (t' & rs' & bad & Ht' & _ & Hins & _ & ->).
  rewrite lookup_insert_eq in Ht'. injection Ht' as <-.
  apply (insert_tuples_key _ _ _ [c]) in Hins
    as ((new & -> & Hnew) & Hrep & Huniq); [|done].
  rewrite table_rows_insert in *. cbn [tbl_rows with_rows app] in *.
  subst new'. rewrite Forall_forall in Hnew, Hfk.
  split; [|split; [|split]].
  - intros x Hx. by apply Hnew.
  - intros v k Hv Hk. apply found_once.
    + apply Huniq. constructor.
    + destruct (Hrep v Hv) as [Hin|[_ Hin]]; [by eexists|].
      apply list_elem_of_fmap in Hin as (x & Hkey & Hx).
      apply list_elem_of_filter in Hx as [_ Hx].
      exists x. split; [done|].
      unfold key_of in Hkey. cbn [fmap list_fmap] in Hkey.
      injection Hkey as Hkey. fold store in Hkey. by rewrite <- Hkey.
  - intros x Hx. specialize (Hfk x Hx). cbn [tbl_fks] in Hfk.
    eapply Forall_impl; [exact Hfk|]. intros fk Hr.
    destruct Hr as [?|(p & l & Hp & Hl & Heq)]; [by left|].
    right. exists p, l. split; [|done].
    destruct (decide (fk_table fk = name)) as [Heqn|Hnen].
    + rewrite Heqn, lookup_insert_eq in Hp. injection Hp as <-.
      by apply elem_of_nil in Hl.
    + by rewrite lookup_insert_ne in Hp.
  - intros n Hn. by rewrite !lookup_insert_ne.
Qed.

(** X10.  Creating and filling person on a store without it: each person row
    comes from a person_codes row, id, first and last name as texts in that
    order, and each text id of person_codes finds exactly one person row. *)
Theorem person_rows (d d1 : db) (src : table) :
  d !! "person" = None → d !! "person_codes" = Some src →
  run_command Person.c1 d ≫= run_command Person.c2 = Ok d1 →
  (∀ x, x ∈ table_rows "person" d1 →
     ∃ r, r ∈ tbl_rows src ∧
          col x "person_id" = apply_affinity TEXT (col r "id") ∧
          col x "first_name" = apply_affinity TEXT (col r "first") ∧
          col x "last_name" = apply_affinity TEXT (col r "last")) ∧
  (∀ r k, r ∈ tbl_rows src → col r "id" = VText k →
     List.length (filter (λ x, col x "person_id" = VText k)
                         (table_rows "person" d1)) = 1%nat).
Proof.
  intros Hfresh Hsrc Hrun.
  apply (single_key_cell "person" _ "person_id" [] "person_codes" _ d d1 src)
    in Hrun as (Hrows & Honce & _ & _); try done.
  assert (Hnd : NoDup ["person_id"; "first_name"; "last_name"])
    by by_deciding.
  split.
  - intros x Hx. destruct (Hrows x Hx) as (v & Hv & ->).
    apply list_elem_of_fmap in Hv as (r & -> & Hr). exists r.
    split; [done|]. split; [|split].
    + by rewrite (col_store_row _ _ _ 0 "person_id" (col r "id")).
    + by rewrite (col_store_row _ _ _ 1 "first_name" (col r "first")).
    + by rewrite (col_store_row _ _ _ 2 "last_name" (col r "last")).
  - intros r k Hr Hk.
    apply (Honce [col r "id"; col r "first"; col r "last"]).
    + apply list_elem_of_fmap. by exists r.
    + rewrite (col_store_row _ _ _ 0 "person_id" (col r "id")); try done.
      by rewrite Hk.
Qed.

(** X11.  Creating and filling park on a store without it: each park row
    comes from a park_codes row, with the row's aka as nickname and the
    other columns under their own names, and each text park_id of park_codes
    finds exactly one park row. *)
Theorem park_rows (d d1 : db) (src : table) :
  d !! "park" = None → d !! "park_codes" = Some src →
  run_command Park.c1 d ≫= run_command Park.c2 = Ok d1 →
  (∀ x, x ∈ table_rows "park" d1 →
     ∃ r, r ∈ tbl_rows src ∧
          col x "park_id" = apply_affinity TEXT (col r "park_id") ∧
          col x "name" = apply_affinity TEXT (col r "name") ∧
          col x "nickname" = apply_affinity TEXT (col r "aka") ∧
          col x "city" = apply_affinity TEXT (col r "city") ∧
          col x "state" = apply_affinity TEXT (col r "state") ∧
          col x "notes" = apply_affinity TEXT (col r "notes")) ∧
  (∀ r k, r ∈ tbl_rows src → col r "park_id" = VText k →
     List.length (filter (λ x, col x "park_id" = VText k)
                         (table_rows "park" d1)) = 1%nat).
Proof.
  intros Hfresh Hsrc Hrun.
  apply (single_key_cell "park" _ "park_id" [] "park_codes" _ d d1 src)
    in Hrun as (Hrows & Honce & _ & _); try done.
  assert (Hnd : NoDup ["park_id"; "name"; "nickname"; "city"; "state"; "notes"])
    by by_deciding.
  split.
  - intros x Hx. destruct (Hrows x Hx) as (v & Hv & ->).
    apply list_elem_of_fmap in Hv as (r & -> & Hr). exists r.
    split; [done|]. split_conj.
    + by rewrite (col_store_row _ _ _ 0 "park_id" (col r "park_id")).
    + by rewrite (col_store_row _ _ _ 1 "name" (col r "name")).
    + by rewrite (col_store_row _ _ _ 2 "nickname" (col r "aka")).
    + by rewrite (col_store_row _ _ _ 3 "city" (col r "city")).
    + by rewrite (col_store_row _ _ _ 4 "state" (col r "state")).
    + by rewrite (col_store_row _ _ _ 5 "notes" (col r "notes")).
  - intros r k Hr Hk.
    apply (Honce [col r "park_id"; col r "name"; col r "aka"; col r "city";
                  col r "state"; col r "notes"]).
    + apply list_elem_of_fmap. by exists r.
    + rewrite (col_store_row _ _ _ 0 "park_id" (col r "park_id")); try done.
      by rewrite Hk.
Qed.

(** X12.  Creating and filling team on a store without it, when the two
    statements go through: each team row comes from a team_codes row, with
    the row's league as league_id; that league_id is NULL or the league_id
    of a league row; each text team_id of team_codes finds exactly one team
    row. *)
Theorem team_rows (d d1 : db) (src : table) :
  d !! "team" = None → d !! "team_codes" = Some src →
  run_command Team.c1 d ≫= run_command Team.c2 = Ok d1 →
  (∀ x, x ∈ table_rows "team" d1 →
     (∃ r, r ∈ tbl_rows src ∧
           col x "team_id" = apply_affinity TEXT (col r "team_id") ∧
           col x "league_id" = apply_affinity TEXT (col r "league") ∧
           col x "city" = apply_affinity TEXT (col r "city") ∧
           col x "nickname" = apply_affinity TEXT (col r "nickname") ∧
           col x "franch_id" = apply_affinity TEXT (col r "franch_id")) ∧
     resolves d1 (FKey "league_id" "league" "league_id") x) ∧
  (∀ r k, r ∈ tbl_rows src → col r "team_id" = VText k →
     List.length (filter (λ x, col x "team_id" = VText k)
                         (table_rows "team" d1)) = 1%nat).
Proof.
  intros Hfresh Hsrc Hrun.
  apply (single_key_cell "team" _ "team_id"
           [FKey "league_id" "league" "league_id"] "team_codes" _ d d1 src)
    in Hrun as (Hrows & Honce & Hfk & Hframe); try done.
  assert (Hnd : NoDup ["team_id"; "league_id"; "city"; "nickname"; "franch_id"])
    by by_deciding.
  split.
  - intros x Hx. split.
    + destruct (Hrows x Hx) as (v & Hv & ->).
      apply list_elem_of_fmap in Hv as (r & -> & Hr). exists r.
      split; [done|]. split_conj.
      * by rewrite (col_store_row _ _ _ 0 "team_id" (col r "team_id")).
      * by rewrite (col_store_row _ _ _ 1 "league_id" (col r "league")).
      * by rewrite (col_store_row _ _ _ 2 "city" (col r "city")).
      * by rewrite (col_store_row _ _ _ 3 "nickname" (col r "nickname")).
      * by rewrite (col_store_row _ _ _ 4 "franch_id" (col r "franch_id")).
    + specialize (Hfk x Hx). apply Forall_cons in Hfk as [Hfk _].
      unfold resolves in *. cbn [fk_table fk_col fk_ref] in *.
      by rewrite Hframe.
  - intros r k Hr Hk.
    apply (Honce [col r "team_id"; col r "league"; col r "city";
                  col r "nickname"; col r "franch_id"]).
    + apply list_elem_of_fmap. by exists r.
    + rewrite (col_store_row _ _ _ 0 "team_id" (col r "team_id")); try done.
      by rewrite Hk.
Qed.

(** ** The surrogate key of person_appearance *)

Lemma max_rowid_from c (rs : list row) (k : Z) :
  0 ≤ k →
  (∀ (i : nat) x, rs !! i = Some x → col x c = VInt (k + Z.of_nat i + 1)) →
  foldr (λ r m, match col r c with VInt z => Z.max z m | _ => m end) 0 rs
  = match rs with [] => 0 | _ => k + Z.of_nat (List.length rs) end.
Proof.
  revert k. induction rs as [|x rs IH]; intros k Hk Hnum; [done|].
  simpl. rewrite (Hnum 0%nat x eq_refl).
  rewrite (IH (k + 1)); [|lia|].
  - destruct rs; simpl; lia.
  - intros i y Hi. rewrite (Hnum (S i) y Hi). f_equal. lia.
Qed.

Lemma next_rowid_numbered c (rs : list row) :
  numbered c rs → next_rowid c rs = Z.of_nat (List.length rs) + 1.
Proof.
  intros Hnum. unfold next_rowid. rewrite (max_rowid_from c rs 0); [|lia|].
  - destruct rs; simpl; lia.
  - intros i x Hi. by rewrite (Hnum i x Hi).
Qed.

Lemma col_store_row_absent (t : table) cols (vals : tuple) c :
  c ∉ cols → col (store_row t cols vals) c = VNull.
Proof.
  intros Hc. unfold col, store_row.
  rewrite (not_elem_of_list_to_map_1 _ c); [done|].
  intros Hin. apply Hc.
  apply list_elem_of_fmap in Hin as ([c' v'] & -> & Hin).
  apply list_elem_of_fmap in Hin as ([c'' v''] & [= -> ->] & Hin).
  simpl. apply elem_of_zip_l in Hin. done.
Qed.

Lemma col_insert_ne (r : row) (k c : string) (v : value) :
  c ≠ k → col (<[k := v]> r) c = col r c.
Proof. intros Hne. unfold col. by rewrite lookup_insert_ne. Qed.

(** Inserting into a table whose key is the row number never collides:
    every tuple is stored, numbered on from the rows that are there. *)
Lemma insert_tuples_rowid oc (d : db) name (t : table) c cols :
  tbl_pk t = RowidKey c → c ∉ cols →
  ∀ ts rs bad, numbered c rs →
    ∃ new bad',
      insert_tuples oc d name t cols rs bad ts = Ok (rs ++ new, bad') ∧
      numbered c (rs ++ new) ∧
      Forall2 (λ v x, ∀ c', c' ≠ c → col x c' = col (store_row t cols v) c')
              ts new.
Proof.
  intros Hpk Hc ts. induction ts as [|v ts IH]; intros rs bad Hnum.
  - exists [], bad. rewrite app_nil_r. simpl. by split; [|split].
  - simpl. unfold assign_rowid, key_conflict. rewrite Hpk.
    rewrite col_store_row_absent by done. simpl.
    rewrite (next_rowid_numbered c rs Hnum).
    set (r := <[c := VInt (Z.of_nat (List.length rs) + 1)]>
                (store_row t cols v)).
    rewrite bool_decide_eq_false_2.
    + assert (Hnum' : numbered c (rs ++ [r])).
      { intros i x Hi. apply lookup_app_Some in Hi as [Hi|[Hge Hi]].
        - by apply Hnum.
        - apply list_lookup_singleton_Some in Hi as [Hi <-].
          unfold r. rewrite col_insert_eq. f_equal. lia. }
      destruct (IH (rs ++ [r]) (bad || negb (fk_ok d t r)) Hnum')
        as (new & bad' & -> & Hnum'' & Hall).
      exists (r :: new), bad'. rewrite <- app_assoc in *.
      split; [done|]. split; [done|]. constructor; [|done].
      intros c' Hc'. unfold r. by rewrite col_insert_ne.
    + rewrite Exists_exists. intros (x & Hx & Heq).
      apply list_elem_of_lookup in Hx as [i Hi].
      pose proof (lookup_lt_Some _ _ _ Hi) as Hlt.
      rewrite (Hnum i x Hi) in Heq. unfold r in Heq.
      rewrite col_insert_eq in Heq. injection Heq as Heq. lia.
Qed.

(** ** Filling person_appearance *)

Lemma for_each_invariant {A : Type} (I : db → Prop)
    (body : A → db → result db) (l : list A) :
  (∀ x d d', I d → body x d = Ok d' → I d') →
  ∀ d, I d →
    match for_each l body d with
    | Ok d' => I d'
    | Raise e => ∃ x d', x ∈ l ∧ I d' ∧ body x d' = Raise e
    end.
Proof.
  intros Hstep. induction l as [|x l IH]; intros d Hd; [done|].
  simpl. destruct (body x d) as [d'|e] eqn:Hb; simpl.
  - specialize (IH d' (Hstep x d d' Hd Hb)).
    destruct (for_each l body d') as [d''|e]; [done|].
    destruct IH as (y & dy & Hy & HI & Hraise).
    exists y, dy. split; [by apply list_elem_of_further | done].
  - exists x, d. split; [apply list_elem_of_here | done].
Qed.

Lemma bind_Raise {A B : Type} (e : exn) (f : A → result B) :
  Raise e ≫= f = Raise e.
Proof. reflexivity. Qed.

Lemma missing_parent_Some (d : db) (t : table) p :
  missing_parent d t = Some p → d !! p = None.
Proof.
  unfold missing_parent. intros Hm.
  apply fmap_Some in Hm as ([i fk] & Hfind & ->).
  apply list_find_Some in Hfind as (_ & Hnone & _). done.
Qed.

(** One INSERT ... SELECT ... FROM game_log into person_appearance, in
    either conflict mode: it keeps the invariant when it goes through,
    and when it does not, a table was missing or a foreign key failed. *)
Lemma appearances_insert oc select (d0 d : db) :
  appearances_kept d0 d →
  match insert_select oc "person_appearance" (Some PersonAppearance.columns)
                      "game_log" select true d with
  | Ok d' => appearances_kept d0 d'
  | Raise e => e = ForeignKeyFailed ∨ ∃ n, e = NoSuchTable n ∧ d !! n = None
  end.
Proof.
  intros (rs & Hpa & Hnum & Hfk & Hframe).
  unfold insert_select, rows_of, get_table.
  destruct (d !! "game_log") as [g|] eqn:Hg; simpl;
    [|right; by exists "game_log"].
  unfold insert_into, get_table. rewrite Hpa. simpl.
  destruct (missing_parent d _) as [p|] eqn:Hmp.
  { right. exists p. split; [done|]. by apply missing_parent_Some in Hmp. }
  assert (Hc : "appearance_id" ∉ PersonAppearance.columns) by by_deciding.
  destruct (insert_tuples_rowid oc d "person_appearance"
              (with_rows person_appearance_created rs) "appearance_id"
              PersonAppearance.columns eq_refl Hc
              (select (tbl_rows g)) rs false Hnum)
    as (new & bad & Hins & Hnum' & _).
  rewrite Hins. simpl.
  destruct bad; simpl; [by left|].
  apply insert_tuples_fk in Hins as (_ & new' & Heq & Hnew).
  apply app_inv_head in Heq as <-.
  exists (rs ++ new). split; [by rewrite lookup_insert_eq|].
  split; [done|]. split.
  - assert (Hparents : ∀ fk x,
        fk ∈ tbl_fks person_appearance_created →
        resolves d fk x →
        resolves (<["person_appearance" :=
                     with_rows (with_rows person_appearance_created rs)
                               (rs ++ new)]> d) fk x).
    { intros fk x Hin Hr. apply resolves_insert; [|done].
      cbn [tbl_fks person_appearance_created] in Hin.
      rewrite !elem_of_cons, elem_of_nil in Hin.
      destruct Hin as [->|[->|[->|[->|[]]]]]; done. }
    apply Forall_app. split.
    + eapply Forall_impl; [exact Hfk|]. intros x Hx.
      rewrite Forall_forall in Hx |- *. intros fk Hin. by apply Hparents, Hx.
    + eapply Forall_impl; [exact Hnew|]. intros x Hx.
      apply fk_ok_resolves in Hx.
      rewrite Forall_forall in Hx |- *. intros fk Hin. by apply Hparents, Hx.
  - intros n Hn. by rewrite lookup_insert_ne, Hframe.
Qed.

Lemma fill_outcome (d : db) :
  match PersonAppearance.fill d with
  | Ok d' => d !! "person_appearance" = None ∧ appearances_kept d d'
  | Raise e =>
      (e = TableExists "person_appearance" ∧
       is_Some (d !! "person_appearance")) ∨
      e = ForeignKeyFailed ∨
      ∃ n, e = NoSuchTable n ∧ n ≠ "person_appearance" ∧ d !! n = None
  end.
Proof.
  unfold PersonAppearance.fill.
  destruct (d !! "person_appearance") as [t|] eqn:Hpa.
  { assert (Hc1 : run_command PersonAppearance.c1 d
                   = Raise (TableExists "person_appearance")).
    { unfold run_command, PersonAppearance.c1, create_table. by rewrite Hpa. }
    rewrite Hc1. left. eauto. }
  rewrite (create_table_fresh false "person_appearance" _ _ _ d Hpa
           : run_command PersonAppearance.c1 d
             = Ok (<["person_appearance" := person_appearance_created]> d)),
    bind_Ok.
  set (d1 := <["person_appearance" := person_appearance_created]> d).
  assert (H1 : appearances_kept d d1).
  { exists []. split; [apply lookup_insert_eq|]. split; [by intros i x|].
    split; [constructor|]. intros n Hn. unfold d1. by rewrite lookup_insert_ne. }
  assert (Hraise : ∀ d' e, appearances_kept d d' →
            (e = ForeignKeyFailed ∨ ∃ n, e = NoSuchTable n ∧ d' !! n = None) →
            e = ForeignKeyFailed ∨
            ∃ n, e = NoSuchTable n ∧ n ≠ "person_appearance" ∧ d !! n = None).
  { intros d' e (rs & Hd' & _ & _ & Hframe) [->|(n & -> & Hn)]; [by left|].
    right. exists n. split; [done|].
    destruct (decide (n = "person_appearance")) as [->|Hne]; [congruence|].
    split; [done|]. by rewrite <- Hframe. }
  pose proof (appearances_insert IGNORE PersonAppearance.select d d1 H1) as H2.
  change (run_command PersonAppearance.c2 d1) with
    (insert_select IGNORE "person_appearance" (Some PersonAppearance.columns)
                   "game_log" PersonAppearance.select true d1).
  destruct (insert_select IGNORE _ _ _ _ true d1) as [d2|e] eqn:Hc2.
  2:{ rewrite bind_Raise. right. by apply (Hraise d1). }
  rewrite bind_Ok.
  pose proof (for_each_invariant (appearances_kept d)
    (λ q, run_command (PersonAppearance.template q.1 q.2))
    PersonAppearance.query_vars) as Hloop.
  specialize (Hloop ltac:(intros q da db Hda Hb;
    pose proof (appearances_insert ABORT
      (PersonAppearance.template_select q.1 q.2) d da Hda) as Hs;
    unfold run_command, PersonAppearance.template in Hb;
    by rewrite Hb in Hs) d2 H2).
  destruct (for_each _ _ d2) as [d3|e]; [done|].
  destruct Hloop as (q & da & _ & Hda & Hb).
  pose proof (appearances_insert ABORT
    (PersonAppearance.template_select q.1 q.2) d da Hda) as Hs.
  unfold run_command, PersonAppearance.template in Hb. rewrite Hb in Hs.
  right. by apply (Hraise da).
Qed.

(** X13.  When In[23] goes through, the appearance ids of person_appearance
    are 1, 2, 3, ... in the order the rows were stored, and no other table
    has changed. *)
Theorem appearance_ids_numbered (d d' : db) :
  PersonAppearance.fill d = Ok d' →
  numbered "appearance_id" (table_rows "person_appearance" d') ∧
  ∀ n, n ≠ "person_appearance" → d' !! n = d !! n.
Proof.
  intros Hrun. pose proof (fill_outcome d) as Hout. rewrite Hrun in Hout.
  destruct Hout as (_ & rs & Hpa & Hnum & _ & Hframe).
  unfold table_rows. rewrite Hpa. by split.
Qed.

(** X14.  When In[23] goes through, the person, the team, the game and the
    appearance type of every person_appearance row are each NULL or the key
    of a stored row of the table they refer to. *)
Theorem appearances_reference (d d' : db) (x : row) :
  PersonAppearance.fill d = Ok d' →
  x ∈ table_rows "person_appearance" d' →
  resolves d' (FKey "person_id" "person" "person_id") x ∧
  resolves d' (FKey "team_id" "team" "team_id") x ∧
  resolves d' (FKey "game_id" "game" "game_id") x ∧
  resolves d' (FKey "appearance_type_id" "appearance_type"
                    "appearance_type_id") x.
Proof.
  intros Hrun. pose proof (fill_outcome d) as Hout. rewrite Hrun in Hout.
  destruct Hout as (_ & rs & Hpa & _ & Hfk & _).
  unfold table_rows. rewrite Hpa. cbn [tbl_rows with_rows]. intros Hx.
  rewrite Forall_forall in Hfk. specialize (Hfk x Hx).
  cbn [tbl_fks person_appearance_created] in Hfk.
  apply Forall_cons in Hfk as [H1 Hfk]. apply Forall_cons in Hfk as [H2 Hfk].
  apply Forall_cons in Hfk as [H3 Hfk]. apply Forall_cons in Hfk as [H4 _].
  done.
Qed.


(** ** Dropping the raw tables *)

Lemma drop_table_Ok fk ie name (d d' : db) :
  drop_table fk ie name d = Ok d' → d' = delete name d.
Proof.
  unfold drop_table. destruct (d !! name) as [t|] eqn:Ht.
  - destruct (fk && referenced d name t); [done|]. by intros [= <-].
  - destruct ie; [|done]. intros [= <-]. by rewrite delete_id.
Qed.

Lemma drop_table_strict fk name (d d' : db) :
  drop_table fk false name d = Ok d' → is_Some (d !! name).
Proof.
  unfold drop_table. destruct (d !! name) as [t|] eqn:Ht; [eauto|done].
Qed.

Lemma bind_Ok_inv {A B : Type} (m : result A) (f : A → result B) (b : B) :
  m ≫= f = Ok b → ∃ a, m = Ok a ∧ f a = Ok b.
Proof. destruct m as [a|e]; [|done]. intros Hf. by exists a. Qed.

Lemma drop_all_Ok (d d' : db) :
  Cleanup.drop_all d = Ok d' →
  (∀ n, n ∈ Cleanup.tables → is_Some (d !! n)) ∧
  d' = delete "person_codes"
         (delete "team_codes" (delete "park_codes" (delete "game_log" d))).
Proof.
  unfold Cleanup.drop_all, Cleanup.tables, run_command. cbn [for_each].
  intros Hrun.
  apply bind_Ok_inv in Hrun as (d1 & H1 & Hrun).
  apply bind_Ok_inv in Hrun as (d2 & H2 & Hrun).
  apply bind_Ok_inv in Hrun as (d3 & H3 & Hrun).
  apply bind_Ok_inv in Hrun as (d4 & H4 & [= <-]).
  pose proof (drop_table_strict _ _ _ _ H1) as S1.
  pose proof (drop_table_strict _ _ _ _ H2) as S2.
  pose proof (drop_table_strict _ _ _ _ H3) as S3.
  pose proof (drop_table_strict _ _ _ _ H4) as S4.
  apply drop_table_Ok in H1, H2, H3, H4. subst d1 d2 d3 d4.
  rewrite lookup_delete_ne in S2 by done.
  rewrite !lookup_delete_ne in S3 by done.
  rewrite !lookup_delete_ne in S4 by done.
  split; [|done].
  intros n Hn. rewrite !elem_of_cons, elem_of_nil in Hn.
  by destruct Hn as [->|[->|[->|[->|[]]]]].
Qed.

Lemma drop_all_gone (d : db) n :
  n ∈ Cleanup.tables →
  delete "person_codes"
    (delete "team_codes" (delete "park_codes" (delete "game_log" d))) !! n
  = None.
Proof.
  unfold Cleanup.tables. rewrite !elem_of_cons, elem_of_nil.
  intros [->|[->|[->|[->|[]]]]].
  - rewrite !lookup_delete_ne by done. apply lookup_delete_eq.
  - rewrite !lookup_delete_ne by done. apply lookup_delete_eq.
  - rewrite !lookup_delete_ne by done. apply lookup_delete_eq.
  - apply lookup_delete_eq.
Qed.

Lemma drop_all_kept (d : db) n :
  n ∉ Cleanup.tables →
  delete "person_codes"
    (delete "team_codes" (delete "park_codes" (delete "game_log" d))) !! n
  = d !! n.
Proof.
  unfold Cleanup.tables. rewrite !not_elem_of_cons.
  intros (? & ? & ? & ? & _). by rewrite !lookup_delete_ne.
Qed.

(** X16.  When In[26] goes through, the four raw tables were all there and
    are gone, every other table is as it was, and running the cell again
    raises "no such table: game_log". *)
Theorem drop_all_once (d d' : db) :
  Cleanup.drop_all d = Ok d' →
  (∀ n, n ∈ Cleanup.tables → is_Some (d !! n) ∧ d' !! n = None) ∧
  (∀ n, n ∉ Cleanup.tables → d' !! n = d !! n) ∧
  Cleanup.drop_all d' = Raise (NoSuchTable "game_log").
Proof.
  intros [Hthere ->]%drop_all_Ok. split; [|split].
  - intros n Hn. split; [by apply Hthere | by apply drop_all_gone].
  - apply drop_all_kept.
  - unfold Cleanup.drop_all, Cleanup.tables, run_command. cbn [for_each].
    set (d' := delete "person_codes" _).
    assert (Hgone : drop_table true false "game_log" d'
                    = Raise (NoSuchTable "game_log")).
    { unfold drop_table, d'.
      by rewrite (drop_all_gone d "game_log") by by_deciding. }
    by rewrite Hgone.
Qed.

(** ** Which tables a run leaves *)

Lemma dom_present (d : db) k (t : table) :
  d !! k = Some t → dom d = {[k]} ∪ dom d.
Proof.
  intros Hk. apply set_eq. intros n.
  rewrite elem_of_union, elem_of_singleton, !elem_of_dom.
  split; [tauto|]. intros [->|?]; eauto.
Qed.

Lemma dom_create_table ine name cols pk fks (d d' : db) :
  create_table ine name cols pk fks d = Ok d' →
  dom d' = {[name]} ∪ dom d.
Proof.
  unfold create_table. destruct (d !! name) as [t|] eqn:Ht.
  - destruct ine; [|done]. intros [= <-]. by apply (dom_present d name t).
  - intros [= <-]. by rewrite dom_insert_L.
Qed.

Lemma dom_drop_table fk ie name (d d' : db) :
  drop_table fk ie name d = Ok d' → dom d' = dom d ∖ {[name]}.
Proof. intros ->%drop_table_Ok. by rewrite dom_delete_L. Qed.

Lemma dom_insert_into oc fk name cols ts (d d' : db) :
  insert_into oc fk name cols ts d = Ok d' → dom d' = dom d.
Proof.
  intros (t & rs & bad & Ht & _ & _ & _ & ->)%insert_into_Ok.
  apply dom_insert_lookup_L. eauto.
Qed.

Lemma dom_insert_select oc name cols source select fk (d d' : db) :
  insert_select oc name cols source select fk d = Ok d' → dom d' = dom d.
Proof.
  unfold insert_select. intros (rs & _ & Hins)%bind_Ok_inv.
  by apply dom_insert_into in Hins.
Qed.

Lemma dom_to_sql append name data (d d' : db) :
  to_sql append name data d = Ok d' → dom d' = {[name]} ∪ dom d.
Proof.
  unfold to_sql. intros (d1 & Hd1 & Hins)%bind_Ok_inv.
  apply dom_insert_into in Hins. rewrite Hins.
  destruct (d !! name) as [t|] eqn:Ht.
  - destruct append; [|done]. injection Hd1 as <-.
    by apply (dom_present d name t).
  - by apply dom_create_table in Hd1.
Qed.

Lemma dom_add_game_id (d d' : db) :
  GameLog.add_game_id d = Ok d' → dom d' = dom d.
Proof.
  unfold GameLog.add_game_id. intros (d1 & Hd1 & Hup)%bind_Ok_inv.
  assert (H1 : dom d1 = dom d).
  { unfold try_except_pass, run_command, GameLog.c1, alter_add_column,
      get_table in Hd1.
    destruct (d !! "game_log") as [t|] eqn:Ht; simpl in Hd1;
      [|by injection Hd1 as <-].
    destruct (bool_decide _); simpl in Hd1; injection Hd1 as <-; [done|].
    apply dom_insert_lookup_L. eauto. }
  rewrite <- H1. clear Hd1 H1.
  unfold run_command, GameLog.c2, update_set, get_table in Hup.
  destruct (d1 !! "game_log") as [t|] eqn:Ht; simpl in Hup; [|done].
  destruct (bool_decide _); [|done]. injection Hup as <-.
  apply dom_insert_lookup_L. eauto.
Qed.

Lemma dom_load_one name data (d d' : db) :
  drop_table false true name d ≫= to_sql false name data = Ok d' →
  dom d' = {[name]} ∪ dom d.
Proof.
  intros (d1 & H1 & H2)%bind_Ok_inv.
  apply dom_drop_table in H1. apply dom_to_sql in H2.
  rewrite H2, H1. apply set_eq. intros n.
  rewrite !elem_of_union, elem_of_difference, elem_of_singleton.
  destruct (decide (n = name)); tauto.
Qed.

Ltac next_statement H d E :=
  apply bind_Ok_inv in H as (d & E & H).

(** X17.  A run that goes through leaves the eight tables of the normalised
    schema and whatever else the store held before, except the four raw
    tables. *)
Theorem migrate_tables (inp : inputs) (d d' : db) :
  migrate inp d = Ok d' →
  dom d' = list_to_set normalized_tables
           ∪ (dom d ∖ list_to_set Cleanup.tables).
Proof.
  unfold migrate, reference_tables. intros Hrun.
  rewrite <- !(assoc_L (≫=)) in Hrun || idtac.
  next_statement Hrun dr Href.
  next_statement Href d1 E1. next_statement Href d2 E2.
  next_statement Href d3 E3. next_statement Href d4 E4.
  next_statement Href d5 E5. next_statement Href d6 E6.
  next_statement Href d7 E7. next_statement Href d8 E8.
  next_statement Href d9 E9. next_statement Href d10 E10.
  next_statement Href d11 E11. next_statement Href d12 E12.
  rename Href into E13.
  next_statement Hrun d14 E14. next_statement Hrun d15 E15.
  next_statement Hrun d16 E16. next_statement Hrun d17 E17.
  next_statement Hrun d18 E18. next_statement Hrun d19 E19.
  rename Hrun into E20.
  unfold GameLog.load, GameLog.tables in E1. cbn [for_each fst snd] in E1.
  next_statement E1 da Ea. next_statement E1 db' Eb.
  next_statement E1 dc Ec. next_statement E1 dd Ed. injection E1 as ->.
  apply dom_load_one in Ea, Eb, Ec, Ed.
  apply dom_add_game_id in E2.
  apply dom_create_table in E3, E5, E7, E10, E12, E14, E16.
  apply dom_insert_select in E4, E6, E13, E15, E17.
  apply dom_insert_into in E8.
  apply dom_drop_table in E9, E18.
  apply dom_to_sql in E11.
  pose proof (fill_outcome d18) as Hfill. rewrite E19 in Hfill.
  destruct Hfill as (_ & rs & Hpa & _ & _ & Hframe).
  apply drop_all_Ok in E20 as [_ ->].
  apply set_eq. intros n.
  rewrite elem_of_union, elem_of_difference, !elem_of_list_to_set.
  destruct (decide (n ∈ Cleanup.tables)) as [Hn|Hn].
  { rewrite elem_of_dom, (drop_all_gone d19 n Hn).
    split; [by intros [? ?]|]. intros [Hin|[_ ?]]; [|done]. exfalso.
    unfold Cleanup.tables, normalized_tables in *.
    rewrite !elem_of_cons, elem_of_nil in Hn.
    rewrite !elem_of_cons, elem_of_nil in Hin.
    destruct Hn as [->|[->|[->|[->|[]]]]];
      destruct Hin as [?|[?|[?|[?|[?|[?|[?|[?|[]]]]]]]]]; done. }
  rewrite elem_of_dom, (drop_all_kept d19 n Hn).
  destruct (decide (n = "person_appearance")) as [->|Hpan].
  { rewrite Hpa. split; [|eauto]. intros _. left.
    unfold normalized_tables. rewrite !elem_of_cons. tauto. }
  rewrite (Hframe n Hpan), <- elem_of_dom.
  rewrite E18, E17, E16, E15, E14, E13, E12, E11, E10, E9, E8, E7, E6, E5,
    E4, E3, E2, Ed, Ec, Eb, Ea.
  unfold Cleanup.tables, normalized_tables in *.
  rewrite !not_elem_of_cons in Hn. destruct Hn as (? & ? & ? & ? & _).
  rewrite !elem_of_cons, elem_of_nil.
  repeat (rewrite elem_of_union || rewrite elem_of_difference
          || rewrite elem_of_singleton).
  destruct (decide (n = "appearance_type")); tauto.
Qed.

(** ** Rebuilding appearance_type *)

(** A plain INSERT into a table with a PRIMARY KEY stores every tuple or
    fails: a statement that went through has appended them all, in
    order, and the keys are still unique. *)
Lemma insert_tuples_abort (d : db) name (t : table) cs cols :
  tbl_pk t = Key cs →
  ∀ ts rs bad rs' bad',
    insert_tuples ABORT d name t cols rs bad ts = Ok (rs', bad') →
    rs' = rs ++ (store_row t cols <$> ts) ∧
    (keys_unique cs rs → keys_unique cs rs').
Proof.
  intros Hpk ts. induction ts as [|v ts IH]; intros rs bad rs' bad' Hins.
  - injection Hins as <- <-. by rewrite app_nil_r.
  - simpl in Hins. rewrite (assign_rowid_key t cs) in Hins by done.
    destruct (key_conflict t rs (store_row t cols v)) eqn:Hc; [done|].
    apply IH in Hins as [-> Huniq]. split.
    + by rewrite <- app_assoc.
    + intros Hu. apply Huniq. apply keys_unique_snoc; [done|].
      rewrite <- (key_conflict_spec t cs) by done. by rewrite Hc.
Qed.

(** X18.  In[19], when its three statements go through on a frame with the
    columns of appearance_type.csv: whatever appearance_type held before, it
    now holds the frame's rows, one stored row per frame row in the frame's
    order, with each value turned to text; no two rows share an id that is
    not NULL; every other table is as it was. *)
Theorem appearance_type_rebuilt (data : frame) (d d' : db) :
  (fr_cols data).*1 = ["appearance_type_id"; "name"; "category"] →
  (d ← run_command AppearanceType.c1 d;
   d ← run_command AppearanceType.c2 d;
   AppearanceType.load data d) = Ok d' →
  Forall2 (λ r x,
      col x "appearance_type_id"
        = apply_affinity TEXT (col r "appearance_type_id") ∧
      col x "name" = apply_affinity TEXT (col r "name") ∧
      col x "category" = apply_affinity TEXT (col r "category"))
    (fr_rows data) (table_rows "appearance_type" d') ∧
  keys_unique ["appearance_type_id"] (table_rows "appearance_type" d') ∧
  ∀ n, n ≠ "appearance_type" → d' !! n = d !! n.
Proof.
  intros Hcols Hrun.
  apply bind_Ok_inv in Hrun as (d1 & Hdrop & Hrun).
  apply bind_Ok_inv in Hrun as (d2 & Hcreate & Hload).
  apply drop_table_Ok in Hdrop. subst d1.
  unfold run_command, AppearanceType.c2 in Hcreate.
  rewrite create_table_fresh in Hcreate by apply lookup_delete_eq.
  injection Hcreate as <-. rewrite insert_delete_eq in Hload.
  unfold AppearanceType.load, to_sql in Hload.
  rewrite lookup_insert_eq, bind_Ok, Hcols in Hload.
  apply insert_into_Ok in Hload as (t & rs' & bad & Ht & _ & Hins & _ & ->).
  rewrite lookup_insert_eq in Ht. injection Ht as <-.
  apply (insert_tuples_abort _ _ _ ["appearance_type_id"]) in Hins
    as [-> Huniq]; [|done].
  rewrite insert_insert_eq, table_rows_insert.
  cbn [tbl_rows with_rows app default] in *.
  split; [|split].
  - rewrite <- list_fmap_compose. apply Forall2_fmap_r, Forall_Forall2_diag.
    apply Forall_forall. intros r _. cbn [compose fmap list_fmap].
    assert (Hnd : NoDup ["appearance_type_id"; "name"; "category"])
      by by_deciding.
    split_conj.
    + by rewrite (col_store_row _ _ _ 0 "appearance_type_id"
                    (col r "appearance_type_id")).
    + by rewrite (col_store_row _ _ _ 1 "name" (col r "name")).
    + by rewrite (col_store_row _ _ _ 2 "category" (col r "category")).
  - apply Huniq. constructor.
  - intros n Hn. by rewrite lookup_insert_ne.
Qed.

(** ** The foreign keys of game and team_appearance *)

(** A cell that creates a table and fills it with one INSERT ... SELECT
    on a connection enforcing foreign keys, on a store without the table:
    every row it leaves satisfies every foreign key of the table. *)
Lemma cell_references ine name columns pk fks oc cols source select
    (d d1 : db) :
  d !! name = None →
  create_table ine name columns pk fks d
    ≫= insert_select oc name cols source select true = Ok d1 →
  ∀ x, x ∈ table_rows name d1 → Forall (λ fk, resolves d1 fk x) fks.
Proof.
  intros Hfresh Hrun.
  rewrite create_table_fresh, bind_Ok in Hrun by done.
  unfold insert_select in Hrun.
  apply bind_Ok_inv in Hrun as (rs & _ & Hrun).
  pose proof Hrun as Hrun'.
  apply (insert_into_references _ _ _ _ _ _ (Table columns pk fks []))
    in Hrun' as (new & Hrows & Hfk); [|apply lookup_insert_eq].
  apply insert_into_Ok in Hrun as (t & rs' & bad & Ht & _ & _ & _ & ->).
  rewrite Hrows. cbn [tbl_rows tbl_fks app] in *.
  intros x Hx. rewrite Forall_forall in Hfk. specialize (Hfk x Hx).
  eapply Forall_impl; [exact Hfk|]. intros fk Hr.
  destruct Hr as [?|(p & l & Hp & Hl & Heq)]; [by left|].
  right. exists p, l. split; [|done].
  destruct (decide (fk_table fk = name)) as [Heqn|Hnen].
  - rewrite Heqn, lookup_insert_eq in Hp. injection Hp as <-.
    by apply elem_of_nil in Hl.
  - by rewrite lookup_insert_ne.
Qed.

(** X19.  In[21], when it goes through on a store without game: the park of
    every game row is NULL or the park_id of a park row. *)
Theorem games_reference_parks (d d1 : db) (x : row) :
  d !! "game" = None →
  run_command Game.c1 d ≫= run_command Game.c2 = Ok d1 →
  x ∈ table_rows "game" d1 →
  resolves d1 (FKey "park_id" "park" "park_id") x.
Proof.
  intros Hfresh Hrun Hx.
  pose proof (cell_references _ _ _ _ _ _ _ _ _ d d1 Hfresh Hrun x Hx) as Hfk.
  by apply Forall_cons in Hfk as [Hfk _].
Qed.

(** X20.  In[22], when it goes through on a store without team_appearance:
    the team of every team_appearance row is NULL or the team_id of a team
    row, and its game is NULL or the game_id of a game row. *)
Theorem team_appearances_reference (d d1 : db) (x : row) :
  d !! "team_appearance" = None →
  run_command TeamAppearance.c1 d ≫= run_command TeamAppearance.c2 = Ok d1 →
  x ∈ table_rows "team_appearance" d1 →
  resolves d1 (FKey "team_id" "team" "team_id") x ∧
  resolves d1 (FKey "game_id" "game" "game_id") x.
Proof.
  intros Hfresh Hrun Hx.
  pose proof (cell_references _ _ _ _ _ _ _ _ _ d d1 Hfresh Hrun x Hx) as Hfk.
  apply Forall_cons in Hfk as [H1 Hfk]. apply Forall_cons in Hfk as [H2 _].
  done.
Qed.

(** ** What person_appearance holds *)

Lemma four_branch team person role (rs : list row) :
  Forall four (PersonAppearance.branch team person role rs).
Proof.
  apply Forall_forall. intros v (r & _ & _ & ->)%elem_of_branch.
  by eexists _, _, _, _.
Qed.

Lemma four_union (a b : list tuple) :
  Forall four a → Forall four b → Forall four (a UNION b).
Proof.
  rewrite !Forall_forall. intros Ha Hb v [?|?]%elem_of_sql_union; eauto.
Qed.

Lemma four_select (rs : list row) : Forall four (PersonAppearance.select rs).
Proof.
  unfold PersonAppearance.select.
  repeat (apply four_union; [|apply four_branch]). apply four_branch.
Qed.

Lemma four_template_select hv num (rs : list row) :
  Forall four (PersonAppearance.template_select hv num rs).
Proof. apply four_union; apply four_branch. Qed.

Lemma appearances_as_stored (rs : list row) (ts : list tuple)
    (new : list row) :
  Forall2 (λ v x, ∀ c', c' ≠ "appearance_id" →
      col x c' = col (store_row (with_rows person_appearance_created rs)
                                PersonAppearance.columns v) c') ts new →
  Forall four ts →
  Forall2 appearance_stored ts new.
Proof.
  assert (Hnd : NoDup PersonAppearance.columns) by by_deciding.
  induction 1 as [|v x ts new Hvx _ IH]; intros Hfour; [constructor|].
  apply Forall_cons in Hfour as [(g & tm & p & role & ->) Hfour].
  constructor; [|by apply IH].
  unfold appearance_stored. split_conj.
  - rewrite Hvx by done.
    by rewrite (col_store_row _ _ _ 0 "game_id" g).
  - rewrite Hvx by done.
    by rewrite (col_store_row _ _ _ 1 "team_id" tm).
  - rewrite Hvx by done.
    by rewrite (col_store_row _ _ _ 2 "person_id" p).
  - rewrite Hvx by done.
    by rewrite (col_store_row _ _ _ 3 "appearance_type_id" role).
Qed.

(** One INSERT ... SELECT ... FROM game_log into person_appearance that
    went through has stored every selected tuple, in order, after the
    rows that were there. *)
Lemma appearances_appended oc select (d d' : db) (rs : list row) :
  d !! "person_appearance" = Some (with_rows person_appearance_created rs) →
  numbered "appearance_id" rs →
  Forall four (select (table_rows "game_log" d)) →
  insert_select oc "person_appearance" (Some PersonAppearance.columns)
                "game_log" select true d = Ok d' →
  ∃ new,
    d' = <["person_appearance" :=
             with_rows person_appearance_created (rs ++ new)]> d ∧
    numbered "appearance_id" (rs ++ new) ∧
    Forall2 appearance_stored (select (table_rows "game_log" d)) new.
Proof.
  intros Hpa Hnum Hfour Hrun. unfold insert_select in Hrun.
  apply bind_Ok_inv in Hrun as (log & Hlog & Hrun).
  assert (Hrows : table_rows "game_log" d = log).
  { unfold rows_of, get_table in Hlog. unfold table_rows.
    destruct (d !! "game_log"); [by injection Hlog|done]. }
  rewrite Hrows in *. clear Hlog Hrows.
  apply insert_into_Ok in Hrun as (t & rs' & bad & Ht & _ & Hins & _ & ->).
  rewrite Hpa in Ht. injection Ht as <-.
  assert (Hc : "appearance_id" ∉ PersonAppearance.columns) by by_deciding.
  destruct (insert_tuples_rowid oc d "person_appearance"
              (with_rows person_appearance_created rs) "appearance_id"
              PersonAppearance.columns eq_refl Hc (select log) rs false Hnum)
    as (new & bad' & Hins' & Hnum' & Hall).
  change (insert_tuples oc d "person_appearance"
            (with_rows person_appearance_created rs) PersonAppearance.columns
            rs false (select log) = Ok (rs', bad)) in Hins.
  rewrite Hins' in Hins.
  injection Hins as <- <-.
  exists new. split; [done|]. split; [done|].
  by apply (appearances_as_stored rs).
Qed.

Lemma template_loop (l : list (string * Z)) :
  ∀ (d d' : db) (rs : list row),
    d !! "person_appearance"
      = Some (with_rows person_appearance_created rs) →
    numbered "appearance_id" rs →
    for_each l (λ q, run_command (PersonAppearance.template q.1 q.2)) d
      = Ok d' →
    ∃ new,
      d' = <["person_appearance" :=
               with_rows person_appearance_created (rs ++ new)]> d ∧
      Forall2 appearance_stored
        (q ← l; PersonAppearance.template_select q.1 q.2
                  (table_rows "game_log" d))
        new.
Proof.
  induction l as [|q l IH]; intros d d' rs Hpa Hnum Hrun.
  - injection Hrun as <-. exists []. split; [|constructor].
    rewrite app_nil_r. by rewrite insert_id.
  - rewrite for_each_cons in Hrun.
    apply bind_Ok_inv in Hrun as (d1 & Hq & Hrun).
    apply (appearances_appended _ _ _ _ rs) in Hq
      as (new & -> & Hnum' & Hnew);
      [|done|done|apply four_template_select].
    apply (IH _ _ (rs ++ new)) in Hrun as (new' & -> & Hnew');
      [|apply lookup_insert_eq|done].
    exists (new ++ new'). split.
    + by rewrite insert_insert_eq, app_assoc.
    + rewrite bind_cons. apply Forall2_app; [done|].
      unfold table_rows in Hnew' |- *.
      by rewrite lookup_insert_ne in Hnew'.
Qed.

Lemma fill_rows (d d' : db) :
  PersonAppearance.fill d = Ok d' →
  ∃ first rest,
    table_rows "person_appearance" d' = first ++ rest ∧
    Forall2 appearance_stored
      (PersonAppearance.select (table_rows "game_log" d)) first ∧
    Forall2 appearance_stored
      (q ← PersonAppearance.query_vars;
       PersonAppearance.template_select q.1 q.2 (table_rows "game_log" d))
      rest.
Proof.
  intros Hrun. pose proof (fill_outcome d) as Hout. rewrite Hrun in Hout.
  destruct Hout as [Hfresh _].
  unfold PersonAppearance.fill in Hrun.
  rewrite (create_table_fresh false "person_appearance" _ _ _ d Hfresh
           : run_command PersonAppearance.c1 d
             = Ok (<["person_appearance" := person_appearance_created]> d)),
    bind_Ok in Hrun.
  apply bind_Ok_inv in Hrun as (d2 & Hc2 & Hrun).
  assert (Hlog : ∀ y, table_rows "game_log"
                        (<["person_appearance" := y]> d)
                      = table_rows "game_log" d).
  { intros y. unfold table_rows. by rewrite lookup_insert_ne. }
  apply (appearances_appended _ _ _ _ []) in Hc2
    as (new & -> & Hnum & Hnew);
    [|apply lookup_insert_eq|by intros i x|apply four_select].
  apply (template_loop _ _ _ new) in Hrun as (new' & -> & Hnew');
    [|by rewrite lookup_insert_eq|done].
  rewrite insert_insert_eq in Hnew'. rewrite !Hlog in *.
  rewrite table_rows_insert. cbn [tbl_rows with_rows app].
  by exists new, new'.
Qed.

(** X21.  When In[23] goes through, person_appearance holds exactly the
    tuples that its nineteen statements select from game_log: one row per
    selected tuple, none skipped, in the order of the statements. *)
Theorem appearances_are_the_selected (d d' : db) :
  PersonAppearance.fill d = Ok d' →
  Forall2 appearance_stored
    (selected_appearances (table_rows "game_log" d))
    (table_rows "person_appearance" d').
Proof.
  intros (first & rest & -> & Hfirst & Hrest)%fill_rows.
  unfold selected_appearances. by apply Forall2_app.
Qed.

(** ** Counting games *)

Lemma affinity_text_twice (v : value) :
  apply_affinity TEXT (apply_affinity TEXT v) = apply_affinity TEXT v.
Proof. by destruct v. Qed.

Lemma stored_game_id (ts : list tuple) (rs : list row) (x : row) :
  Forall2 appearance_stored ts rs → x ∈ rs →
  apply_affinity TEXT (col x "game_id") = col x "game_id".
Proof.
  induction 1 as [|v y ts rs Hvy _ IH]; [by intros ?%elem_of_nil|].
  intros [->|Hx]%elem_of_cons; [|by apply IH].
  unfold appearance_stored in Hvy.
  destruct v as [|g [|tm [|p [|role [|? ?]]]]]; try done.
  destruct Hvy as [-> _]. apply affinity_text_twice.
Qed.

(** X22.  The two counts of In[24]: when the statements of In[23] after the
    DROP go through on a store whose game table has a TEXT game_id,
    person_appearance counts at most as many distinct games as game, since
    every game it names is a game row. *)
Theorem appearance_games_counted (d d' : db) (g : table) :
  d !! "game" = Some g → col_type g "game_id" = TEXT →
  PersonAppearance.fill d = Ok d' →
  (count_distinct "game_id" (table_rows "person_appearance" d')
   ≤ count_distinct "game_id" (table_rows "game" d'))%nat.
Proof.
  intros Hg Hty Hrun.
  destruct (fill_rows d d' Hrun) as (first & rest & Hrows & H1 & H2).
  assert (Hstored := Forall2_app H1 H2).
  rewrite <- Hrows in Hstored. clear H1 H2 Hrows.
  pose proof (fill_outcome d) as Hout. rewrite Hrun in Hout.
  destruct Hout as (_ & rs & Hpa & _ & Hfk & Hframe).
  assert (Hg' : d' !! "game" = Some g) by by rewrite Hframe.
  unfold count_distinct, table_rows in *. rewrite Hpa, Hg' in *.
  cbn [tbl_rows with_rows] in *.
  apply submseteq_length, NoDup_submseteq; [apply NoDup_remove_dups|].
  intros v. rewrite !elem_of_remove_dups, !list_elem_of_filter.
  intros [Hv Hin]. split; [done|].
  apply list_elem_of_fmap in Hin as (x & -> & Hx).
  rewrite Forall_forall in Hfk. specialize (Hfk x Hx).
  cbn [tbl_fks person_appearance_created] in Hfk.
  apply Forall_cons in Hfk as [_ Hfk]. apply Forall_cons in Hfk as [_ Hfk].
  apply Forall_cons in Hfk as [[Hnull|(p & l & Hp & Hl & Heq)] _]; [done|].
  cbn [fk_table fk_col fk_ref] in *.
  rewrite Hg' in Hp. injection Hp as <-.
  rewrite Hty, (stored_game_id _ _ x Hstored Hx) in Heq.
  apply list_elem_of_fmap. by exists l.
Qed.

(** ** The properties on the sample data *)

Lemma add_game_id_idempotent_witness :
  GameLog.add_game_id Scenario.with_ids = Ok Scenario.with_ids.
Proof.
  apply (add_game_id_idempotent Sample.loaded). by_deciding.
Defined.

Lemma person_cell_idempotent_witness :
  run_command Person.c1 Scenario.with_person ≫= run_command Person.c2
  = Ok Scenario.with_person.
Proof.
  apply (person_cell_idempotent Sample.loaded _
           (Sample.table_of "person_codes" Sample.loaded)).
  - by_deciding.
  - by_deciding.
  - apply Forall_forall. by_deciding.
  - by_deciding.
Defined.

Lemma park_cell_idempotent_witness :
  run_command Park.c1 Scenario.with_park ≫= run_command Park.c2
  = Ok Scenario.with_park.
Proof.
  apply (park_cell_idempotent Sample.loaded _
           (Sample.table_of "park_codes" Sample.loaded)).
  - by_deciding.
  - by_deciding.
  - apply Forall_forall. by_deciding.
  - by_deciding.
Defined.

Lemma team_cell_idempotent_witness :
  run_command Team.c1 Scenario.with_team ≫= run_command Team.c2
  = Ok Scenario.with_team.
Proof.
  apply (team_cell_idempotent Scenario.with_league _
           (Sample.table_of "team_codes" Scenario.with_league)).
  - by_deciding.
  - by_deciding.
  - apply Forall_forall. by_deciding.
  - by_deciding.
Defined.

Lemma league_cell_witness :
  ∃ d1,
    run_command League.c1 ∅ ≫= run_command League.c2 = Ok d1 ∧
    (λ x, [col x "league_id"; col x "name"]) <$> table_rows "league" d1
      = [ [VText "NL"; VText "National League"];
          [VText "AL"; VText "American League"];
          [VText "AA"; VText "American Association"];
          [VText "FL"; VText "Federal League"];
          [VText "PL"; VText "Players League"];
          [VText "UA"; VText "Union Association"] ] ∧
    (∀ name, name ≠ "league" → d1 !! name = (∅ : db) !! name) ∧
    run_command League.c1 d1 ≫= run_command League.c2 = Ok d1.
Proof. apply (league_cell ∅). apply lookup_empty. Defined.

Lemma person_null_id_stored_again_witness :
  (List.length (table_rows "person" Scenario.anonymous)
   < List.length (table_rows "person" Scenario.anonymous_again))%nat.
Proof.
  apply (person_null_id_stored_again Scenario.anonymous
           Scenario.anonymous_again
           (Sample.table_of "person_codes" Scenario.anonymous)
           (table_rows "person" Scenario.anonymous)
           (Scenario.first_row "person_codes" Scenario.anonymous)).
  - by_deciding.
  - by_deciding.
  - by_deciding.
  - by_deciding.
  - by_deciding.
Defined.

Lemma person_rows_witness :
  (∀ x, x ∈ table_rows "person" Scenario.with_person →
     ∃ r, r ∈ tbl_rows (Sample.table_of "person_codes" Sample.loaded) ∧
          col x "person_id" = apply_affinity TEXT (col r "id") ∧
          col x "first_name" = apply_affinity TEXT (col r "first") ∧
          col x "last_name" = apply_affinity TEXT (col r "last")) ∧
  (∀ r k, r ∈ tbl_rows (Sample.table_of "person_codes" Sample.loaded) →
     col r "id" = VText k →
     List.length (filter (λ x, col x "person_id" = VText k)
                         (table_rows "person" Scenario.with_person))
     = 1%nat).
Proof.
  apply (person_rows Sample.loaded).
  - by_deciding.
  - by_deciding.
  - by_deciding.
Defined.

Lemma park_rows_witness :
  (∀ x, x ∈ table_rows "park" Scenario.with_park →
     ∃ r, r ∈ tbl_rows (Sample.table_of "park_codes" Sample.loaded) ∧
          col x "park_id" = apply_affinity TEXT (col r "park_id") ∧
          col x "name" = apply_affinity TEXT (col r "name") ∧
          col x "nickname" = apply_affinity TEXT (col r "aka") ∧
          col x "city" = apply_affinity TEXT (col r "city") ∧
          col x "state" = apply_affinity TEXT (col r "state") ∧
          col x "notes" = apply_affinity TEXT (col r "notes")) ∧
  (∀ r k, r ∈ tbl_rows (Sample.table_of "park_codes" Sample.loaded) →
     col r "park_id" = VText k →
     List.length (filter (λ x, col x "park_id" = VText k)
                         (table_rows "park" Scenario.with_park)) = 1%nat).
Proof.
  apply (park_rows Sample.loaded).
  - by_deciding.
  - by_deciding.
  - by_deciding.
Defined.

Lemma team_rows_witness :
  (∀ x, x ∈ table_rows "team" Scenario.with_team →
     (∃ r, r ∈ tbl_rows (Sample.table_of "team_codes" Scenario.with_league) ∧
           col x "team_id" = apply_affinity TEXT (col r "team_id") ∧
           col x "league_id" = apply_affinity TEXT (col r "league") ∧
           col x "city" = apply_affinity TEXT (col r "city") ∧
           col x "nickname" = apply_affinity TEXT (col r "nickname") ∧
           col x "franch_id" = apply_affinity TEXT (col r "franch_id")) ∧
     resolves Scenario.with_team (FKey "league_id" "league" "league_id") x) ∧
  (∀ r k, r ∈ tbl_rows (Sample.table_of "team_codes" Scenario.with_league) →
     col r "team_id" = VText k →
     List.length (filter (λ x, col x "team_id" = VText k)
                         (table_rows "team" Scenario.with_team)) = 1%nat).
Proof.
  apply (team_rows Scenario.with_league).
  - by_deciding.
  - by_deciding.
  - by_deciding.
Defined.

Lemma appearance_ids_numbered_witness :
  numbered "appearance_id" (table_rows "person_appearance" Scenario.filled) ∧
  ∀ n, n ≠ "person_appearance" →
       Scenario.filled !! n = Sample.with_team_appearance !! n.
Proof.
  apply (appearance_ids_numbered Sample.with_team_appearance). by_deciding.
Defined.

Lemma appearances_reference_witness :
  resolves Scenario.filled (FKey "person_id" "person" "person_id")
    (Scenario.first_row "person_appearance" Scenario.filled) ∧
  resolves Scenario.filled (FKey "team_id" "team" "team_id")
    (Scenario.first_row "person_appearance" Scenario.filled) ∧
  resolves Scenario.filled (FKey "game_id" "game" "game_id")
    (Scenario.first_row "person_appearance" Scenario.filled) ∧
  resolves Scenario.filled
    (FKey "appearance_type_id" "appearance_type" "appearance_type_id")
    (Scenario.first_row "person_appearance" Scenario.filled).
Proof.
  apply (appearances_reference Sample.with_team_appearance).
  - by_deciding.
  - by_deciding.
Defined.


Lemma drop_all_once_witness :
  (∀ n, n ∈ Cleanup.tables →
        is_Some (Scenario.filled !! n) ∧ Scenario.cleaned !! n = None) ∧
  (∀ n, n ∉ Cleanup.tables → Scenario.cleaned !! n = Scenario.filled !! n) ∧
  Cleanup.drop_all Scenario.cleaned = Raise (NoSuchTable "game_log").
Proof. apply (drop_all_once Scenario.filled). by_deciding. Defined.

Lemma migrate_tables_witness :
  dom Scenario.migrated
  = list_to_set normalized_tables
    ∪ (dom (∅ : db) ∖ list_to_set Cleanup.tables).
Proof.
  apply (migrate_tables (Sample.data [Sample.game1])). by_deciding.
Defined.

Lemma appearance_type_rebuilt_witness :
  Forall2 (λ r x,
      col x "appearance_type_id"
        = apply_affinity TEXT (col r "appearance_type_id") ∧
      col x "name" = apply_affinity TEXT (col r "name") ∧
      col x "category" = apply_affinity TEXT (col r "category"))
    (fr_rows Sample.appearance_types)
    (table_rows "appearance_type" Scenario.appearance_types) ∧
  keys_unique ["appearance_type_id"]
    (table_rows "appearance_type" Scenario.appearance_types) ∧
  ∀ n, n ≠ "appearance_type" →
       Scenario.appearance_types !! n = (∅ : db) !! n.
Proof.
  apply (appearance_type_rebuilt Sample.appearance_types ∅).
  - reflexivity.
  - by_deciding.
Defined.

Lemma games_reference_parks_witness :
  resolves Sample.with_game (FKey "park_id" "park" "park_id")
    (Scenario.first_row "game" Sample.with_game).
Proof.
  apply (games_reference_parks Sample.before_game).
  - by_deciding.
  - by_deciding.
  - by_deciding.
Defined.

Lemma team_appearances_reference_witness :
  resolves Sample.with_team_appearance (FKey "team_id" "team" "team_id")
    (Scenario.first_row "team_appearance" Sample.with_team_appearance) ∧
  resolves Sample.with_team_appearance (FKey "game_id" "game" "game_id")
    (Scenario.first_row "team_appearance" Sample.with_team_appearance).
Proof.
  apply (team_appearances_reference Sample.with_game).
  - by_deciding.
  - by_deciding.
  - by_deciding.
Defined.

Lemma appearances_are_the_selected_witness :
  Forall2 appearance_stored
    (selected_appearances (table_rows "game_log" Sample.with_team_appearance))
    (table_rows "person_appearance" Scenario.filled).
Proof.
  apply (appearances_are_the_selected Sample.with_team_appearance).
  by_deciding.
Defined.

Lemma loaded_game_log_cells_witness :
  after (GameLog.load
           (GameLog.tables (Sample.game_log [Sample.game1])
              Sample.person_codes Sample.team_codes Sample.park_codes) ∅)
    (λ d',
      List.length (table_rows "game_log" d')
      = List.length (fr_rows (Sample.game_log [Sample.game1])) ∧
      ∃ x, table_rows "game_log" d' !! 0%nat = Some x ∧
           col x "date" = apply_affinity INTEGER (col Sample.game1 "date")).
Proof.
  apply (loaded_game_log_cells (Sample.game_log [Sample.game1])).
  - by_deciding.
  - reflexivity.
  - by_deciding.
Defined.

Lemma appearance_games_counted_witness :
  (count_distinct "game_id" (table_rows "person_appearance" Scenario.filled)
   ≤ count_distinct "game_id" (table_rows "game" Scenario.filled))%nat.
Proof.
  apply (appearance_games_counted Sample.with_team_appearance _
           (Sample.table_of "game" Sample.with_team_appearance)).
  - by_deciding.
  - reflexivity.
  - by_deciding.
Defined.
